(** * ksm-google-scim: the reconciliation engine of [scim/sync.go]

    A shallow embedding of [sync.Sync], [sync.syncGroups], [sync.syncUsers]
    and [sync.syncMembership], with the theorems that settle the claims of the
    specification against that code.

    Conventions of the embedding.
    - A Go [map[string]T] is a [gmap string T]; a never-assigned (nil) map
      field of [struct sync] is [None].  Reading a nil map behaves as reading
      an empty one.
    - [*scimGroup] and [*scimUser] are addresses into two object stores, so
      that the aliasing between [s.scimGroups], [keeperGroups] and
      [groupLookup] is the aliasing of the Go program.
    - Go leaves the order of [range] over a map unspecified: every [range]
      statement draws its order from [ranged], indexed by the statement.
    - The SCIM transport ([patchResource], [postResource], [deleteResource])
      answers from an abstract server state; the requests the engine sends
      are recorded, in order, in [calls]. *)

From stdpp Require Import gmap strings list fin_maps pretty.
From Stdlib Require Import ZArith.

Open Scope string_scope.
Open Scope list_scope.
Open Scope Z_scope.

(** ** Data model ([scim/scim_data.go]) *)

Record User := {
  User_Id : string;
  User_Email : string;
  User_FullName : string;
  User_FirstName : string;
  User_LastName : string;
  User_Active : bool;
  User_Groups : list string;
}.

Record Group := {
  Group_Id : string;
  Group_Name : string;
}.

Record SyncStat := {
  SuccessUsers : list string;
  FailedUsers : list string;
  SuccessGroups : list string;
  FailedGroups : list string;
  SuccessMembership : list string;
  FailedMembership : list string;
}.

(** Modelled from the spec: the declarations of [scimGroup] and [scimUser]
    are not among the files at hand.  A TargetGroup has a "target identifier,
    optional [externalId], display name"; a TargetUser a "target identifier,
    optional [externalId], email/display/given/family name, active flag, set
    of target group identifiers".  The fields are named as [sync.go] reads
    and writes them. *)
Record scimGroup := {
  scimGroup_Id : string;
  scimGroup_ExternalId : string;
  scimGroup_Name : string;
}.

Record scimUser := {
  scimUser_Id : string;
  scimUser_ExternalId : string;
  scimUser_Email : string;
  scimUser_FullName : string;
  scimUser_FirstName : string;
  scimUser_LastName : string;
  scimUser_Active : bool;
  scimUser_Groups : list string;
}.

#[export] Instance scimGroup_inhabited : Inhabited scimGroup :=
  populate {| scimGroup_Id := ""; scimGroup_ExternalId := ""; scimGroup_Name := "" |}.

#[export] Instance scimUser_inhabited : Inhabited scimUser :=
  populate {| scimUser_Id := ""; scimUser_ExternalId := ""; scimUser_Email := "";
              scimUser_FullName := ""; scimUser_FirstName := "";
              scimUser_LastName := ""; scimUser_Active := false;
              scimUser_Groups := [] |}.

#[export] Instance Group_eq_dec : EqDecision Group.
Proof. solve_decision. Defined.

#[export] Instance User_eq_dec : EqDecision User.
Proof. solve_decision. Defined.

#[export] Instance scimGroup_eq_dec : EqDecision scimGroup.
Proof. solve_decision. Defined.

#[export] Instance scimUser_eq_dec : EqDecision scimUser.
Proof. solve_decision. Defined.

(** ** Request payloads: Go's [map[string]any]

    A payload object lists its keys in the order the code assigns them. *)
#[local] Set Warnings "-register-all,-clear-no-such-hyp".

Inductive any :=
| AString (s : string)
| ABool (b : bool)
| AStrings (l : list string)
| AList (l : list any)
| AObject (m : list (string * any)).

(** The requests the engine can send. *)
Inductive Call :=
| CPatch (kind id : string) (payload : any)
| CPost (kind : string) (payload : any)
| CDelete (kind id : string).

(** The double quote of the [fmt.Sprintf] formats. *)
Definition dq : string := String (Ascii.ascii_of_nat 34) EmptyString.

Definition quoted (s : string) : string := dq +:+ s +:+ dq.

(** [len(x) > 0] on a Go string. *)
Definition len_pos (x : string) : bool :=
  match x with EmptyString => false | String _ _ => true end.

(** ** The collaborators of the engine *)

(** The SCIM transport and the record parsers, which are not among the files
    at hand: [patchResource], [postResource], [deleteResource],
    [parseScimGroup], [parseScimUser], and [loadScim], the listing of the
    target's records that [populateScim] relies on.  They are parameters of
    the engine; an error is its message. *)
Class ScimApi (Server : Type) := {
  patchResource : string → string → any → Server → option string * Server;
  postResource : string → any → Server → (any + string) * Server;
  deleteResource : string → string → Server → option string * Server;
  parseScimGroup : any → option scimGroup;
  parseScimUser : any → option scimUser;
  loadScim : Server → (list scimUser * list scimGroup + string) * Server;
}.

(** [ICrmDataSource]: [Users] and [Groups] give the sequence in which the
    callback is called. *)
Class ICrmDataSource (Source : Type) := {
  Users : Source → list User;
  Groups : Source → list Group;
  Populate : Source → option string * Source;
  LoadErrors : Source → bool;
}.

(** What the Go runtime and [golang.org/x/text/cases] contribute:
    [fold_String] is [cases.Fold().String]; [ranged line nth m] is the order
    in which the [range] statement at source line [line] of [sync.go], when
    it runs for the [nth] time in a phase, yields the entries of [m]. *)
Class Runtime := {
  fold_String : string → string;
  ranged : ∀ V : Type, nat → nat → gmap string V → list (string * V);
  ranged_perm : ∀ (V : Type) (line nth : nat) (m : gmap string V),
    ranged V line nth m ≡ₚ map_to_list m;
}.

Arguments ranged {_ _} line nth m.

(** ** The state of a run *)

Definition ptr := nat.

(** [struct sync] (without the source, the URL and the token), the two object
    stores its maps point into, the server and the requests sent so far. *)
Record machine (Server : Type) := Machine {
  scimUsers : option (gmap string ptr);
  scimGroups : option (gmap string ptr);
  verbose : bool;
  updateUsers : bool;
  destructive : Z;
  userObjs : list scimUser;
  groupObjs : list scimGroup;
  server : Server;
  calls : list Call;
}.

Arguments Machine {_}.
Arguments scimUsers {_}.
Arguments scimGroups {_}.
Arguments verbose {_}.
Arguments updateUsers {_}.
Arguments destructive {_}.
Arguments userObjs {_}.
Arguments groupObjs {_}.
Arguments server {_}.
Arguments calls {_}.

Section Engine.

Context {Server Source : Type}.
Context `{!ScimApi Server} `{!ICrmDataSource Source} `{!Runtime}.

Implicit Types (m : machine Server) (p : ptr).

Definition set_groupObjs (objs : list scimGroup) m : machine Server :=
  Machine (scimUsers m) (scimGroups m) (verbose m) (updateUsers m)
          (destructive m) (userObjs m) objs (server m) (calls m).

Definition set_userObjs (objs : list scimUser) m : machine Server :=
  Machine (scimUsers m) (scimGroups m) (verbose m) (updateUsers m)
          (destructive m) objs (groupObjs m) (server m) (calls m).

Definition set_scimGroups (g : option (gmap string ptr)) m : machine Server :=
  Machine (scimUsers m) g (verbose m) (updateUsers m)
          (destructive m) (userObjs m) (groupObjs m) (server m) (calls m).

Definition set_scimUsers (u : option (gmap string ptr)) m : machine Server :=
  Machine u (scimGroups m) (verbose m) (updateUsers m)
          (destructive m) (userObjs m) (groupObjs m) (server m) (calls m).

Definition set_destructive (d : Z) m : machine Server :=
  Machine (scimUsers m) (scimGroups m) (verbose m) (updateUsers m)
          d (userObjs m) (groupObjs m) (server m) (calls m).

(** A request leaves the machine with the server's new state and one more
    entry in [calls]. *)
Definition sent (c : Call) (srv : Server) m : machine Server :=
  Machine (scimUsers m) (scimGroups m) (verbose m) (updateUsers m)
          (destructive m) (userObjs m) (groupObjs m) srv (calls m ++ [c]).

Definition s_patchResource (kind id : string) (payload : any) m
  : option string * machine Server :=
  let r := patchResource kind id payload (server m) in
  (r.1, sent (CPatch kind id payload) r.2 m).

Definition s_postResource (kind : string) (payload : any) m
  : (any + string) * machine Server :=
  let r := postResource kind payload (server m) in
  (r.1, sent (CPost kind payload) r.2 m).

Definition s_deleteResource (kind id : string) m
  : option string * machine Server :=
  let r := deleteResource kind id (server m) in
  (r.1, sent (CDelete kind id) r.2 m).

(** [for k, v := range src { dst[k] = v }] into a fresh map. *)
Definition copyMap {V : Type} (line : nat) (src : gmap string V) : gmap string V :=
  foldl (λ dst kv, <[kv.1 := kv.2]> dst) ∅ (ranged line 0 src).

(** The [op: replace] payload of a group or user update. *)
Definition replacePayload (value : list (string * any)) : any :=
  AObject [("schemas", AStrings ["urn:ietf:params:scim:api:messages:2.0:PatchOp"]);
           ("Operations", AList [AObject [("op", AString "replace");
                                          ("value", AObject value)]])].

(** ** [syncGroups] *)

(** The variables of [syncGroups] that its loops update: the receiver, the two
    working maps and the two result slices. *)
Record gframe := GFrame {
  g_mach : machine Server;
  keeperGroups : gmap string ptr;
  externalGroups : gmap string Group;
  g_successes : list string;
  g_failures : list string;
}.

Definition g_with_mach (f : gframe) m : gframe :=
  GFrame m (keeperGroups f) (externalGroups f) (g_successes f) (g_failures f).

Definition g_success (msg : string) (f : gframe) : gframe :=
  GFrame (g_mach f) (keeperGroups f) (externalGroups f)
         (g_successes f ++ [msg]) (g_failures f).

Definition g_failure (msg : string) (f : gframe) : gframe :=
  GFrame (g_mach f) (keeperGroups f) (externalGroups f)
         (g_successes f) (g_failures f ++ [msg]).

(** Lines 91-94: the callback of [s.source.Groups]. *)
Definition collectGroups (gs : list Group) : gmap string Group :=
  foldl (λ acc group, <[Group_Id group := group]> acc) ∅ gs.

(** Lines 104-132: the lookup table of a round. *)
Definition groupLookup (matchRound : nat) (f : gframe) : gmap string ptr :=
  let objs := groupObjs (g_mach f) in
  match matchRound with
  | 0%nat =>
      foldl (λ acc kv, <[scimGroup_ExternalId (objs !!! kv.2) := kv.2]> acc) ∅
            (ranged 107 0 (keeperGroups f))
  | 1%nat =>
      foldl (λ acc kv, <[fold_String (scimGroup_Name (objs !!! kv.2)) := kv.2]> acc) ∅
            (ranged 111 0 (keeperGroups f))
  | _ =>
      let extKeys := (ranged 116 0 (externalGroups f)).*1 in
      let scimKeys :=
        (filter (λ kv, len_pos (scimGroup_ExternalId (objs !!! kv.2)) = true)
                (ranged 120 0 (keeperGroups f))).*1 in
      (* [zip] stops at [minKeys]; [keeperGroups[scimKeys[i]]] always finds
         its key *)
      foldl (λ acc kv, <[kv.1 := kv.2]> acc) ∅
            (zip extKeys (omap (λ k, keeperGroups f !! k) scimKeys))
  end.

(** Lines 146-153: the attribute diff of a matched pair. *)
Definition groupDiff (keeperGroup : scimGroup) (group : Group) : list (string * any) :=
  (if bool_decide (scimGroup_ExternalId keeperGroup ≠ Group_Id group)
   then [("externalId", AString (Group_Id group))] else []) ++
  (if bool_decide (scimGroup_Name keeperGroup ≠ Group_Name group)
   then [("displayName", AString (Group_Name group))] else []).

(** Lines 154-168: the patch of a matched pair whose diff is not empty. *)
Definition patchGroup (p : ptr) (group : Group) (f : gframe) : gframe :=
  let keeperGroup := groupObjs (g_mach f) !!! p in
  let value := groupDiff keeperGroup group in
  if bool_decide (0 < length value)%nat then
    let r := s_patchResource "Groups" (scimGroup_Id keeperGroup)
                             (replacePayload value) (g_mach f) in
    match r.1 with
    | None =>
        let updated := {| scimGroup_Id := scimGroup_Id keeperGroup;
                          scimGroup_ExternalId := Group_Id group;
                          scimGroup_Name := Group_Name group |} in
        g_success ("SCIM updated group " +:+ quoted (Group_Name group))
          (g_with_mach f (set_groupObjs (<[p := updated]> (groupObjs r.2)) r.2))
    | Some er1 =>
        g_failure ("PATCH group " +:+ quoted (Group_Name group) +:+ " error: " +:+ er1)
          (g_with_mach f r.2)
    end
  else f.

(** Lines 134-172: the body of the loop over the source groups. *)
Definition matchGroup (matchRound : nat) (lookup : gmap string ptr)
    (f : gframe) (group : Group) : gframe :=
  let key := match matchRound with
             | 1%nat => fold_String (Group_Name group)
             | _ => Group_Id group
             end in
  match lookup !! key with
  | Some p =>
      let f1 := patchGroup p group f in
      let keeperGroup := groupObjs (g_mach f1) !!! p in
      GFrame (g_mach f1)
             (delete (scimGroup_Id keeperGroup) (keeperGroups f1))
             (delete (Group_Id group) (externalGroups f1))
             (g_successes f1) (g_failures f1)
  | None => f
  end.

(** Lines 100-172: one turn of the [matchRound] loop.  The [range] of line
    134 yields the entries the map holds when the loop starts; the body only
    deletes the entry it is visiting. *)
Definition matchRoundStep (f : gframe) (matchRound : nat) : gframe :=
  if bool_decide (size (keeperGroups f) = 0%nat ∨ size (externalGroups f) = 0%nat)
  then f
  else
    let lookup := groupLookup matchRound f in
    foldl (λ f kv, matchGroup matchRound lookup f kv.2) f
          (ranged 134 matchRound (externalGroups f)).

(** Lines 99-173.  After a [break] the later rounds do not run; a round that
    starts with an empty map is the identity, so the fold is the loop. *)
Definition matchRounds (f : gframe) : gframe :=
  foldl matchRoundStep f [0; 1; 2]%nat.

(** [s.scimGroups[sg.Id] = sg] for a freshly parsed record: the object gets
    a new address.  The map is not nil where the code assigns to it. *)
Definition storeGroup (sg : scimGroup) m : machine Server :=
  let p := length (groupObjs m) in
  set_scimGroups ((λ g, <[scimGroup_Id sg := p]> g) <$> scimGroups m)
                 (set_groupObjs (groupObjs m ++ [sg]) m).

Definition groupPayload (group : Group) : any :=
  AObject [("schemas", AStrings ["urn:ietf:params:scim:schemas:core:2.0:Group"]);
           ("displayName", AString (Group_Name group));
           ("externalId", AString (Group_Id group))].

(** Lines 175-190: the body of the loop that creates the unmatched source
    groups. *)
Definition createGroup (f : gframe) (group : Group) : gframe :=
  let r := s_postResource "Groups" (groupPayload group) (g_mach f) in
  match r.1 with
  | inl added =>
      let m1 := match parseScimGroup added with
                | Some sg => storeGroup sg r.2
                | None => r.2
                end in
      g_success ("SCIM added group " +:+ quoted (Group_Name group)) (g_with_mach f m1)
  | inr er1 =>
      g_failure ("POST group " +:+ quoted (Group_Name group) +:+ " error: " +:+ er1)
                (g_with_mach f r.2)
  end.

(** Lines 194-211: the body of the loop over the unmatched target groups. *)
Definition deleteGroup (f : gframe) (kv : string * ptr) : gframe :=
  let groupId := kv.1 in
  let group := groupObjs (g_mach f) !!! kv.2 in
  let s := g_mach f in
  if bool_decide (destructive s >= 0) then
    if bool_decide (destructive s > 0) || len_pos (scimGroup_ExternalId group) then
      let r := s_deleteResource "Groups" groupId s in
      match r.1 with
      | None =>
          g_success ("SCIM deleted group " +:+ quoted (scimGroup_Name group))
            (g_with_mach f (set_scimGroups (delete groupId <$> scimGroups r.2) r.2))
      | Some er1 =>
          g_failure ("DELETE group " +:+ quoted (scimGroup_Name group) +:+ " error: " +:+ er1)
            (g_with_mach f r.2)
      end
    else if verbose s then
      g_failure ("DELETE group " +:+ quoted (scimGroup_Name group)
                 +:+ ": delete skipped since the group is not controlled by SCIM") f
    else f
  else
    g_failure ("DELETE group " +:+ quoted (scimGroup_Name group)
               +:+ ": delete skipped since the " +:+ quoted "Safe Mode" +:+ " is enforced") f.

Definition createGroups (f : gframe) : gframe :=
  foldl createGroup f (ranged 175 0 (externalGroups f)).*2.

Definition deleteGroups (f : gframe) : gframe :=
  foldl deleteGroup f (ranged 194 0 (keeperGroups f)).

(** What a phase returns: [(successes, failures, err)]. *)
Definition phaseResult : Type := list string * list string * option string.

(** Lines 81-214. *)
Definition syncGroups (src : Source) m : phaseResult * machine Server :=
  match scimGroups m with
  | None => (([], [], Some "SCIM groups were not populated"), m)
  | Some groups =>
      let f0 := GFrame m (copyMap 87 groups) (collectGroups (Groups src)) [] [] in
      let f3 := deleteGroups (createGroups (matchRounds f0)) in
      ((g_successes f3, g_failures f3, None), g_mach f3)
  end.

(** ** [syncUsers] *)

Record uframe := UFrame {
  u_mach : machine Server;
  keeperUsers : gmap string ptr;
  externalUsers : gmap string User;
  u_successes : list string;
  u_failures : list string;
}.

Definition u_with_mach (f : uframe) m : uframe :=
  UFrame m (keeperUsers f) (externalUsers f) (u_successes f) (u_failures f).

Definition u_success (msg : string) (f : uframe) : uframe :=
  UFrame (u_mach f) (keeperUsers f) (externalUsers f)
         (u_successes f ++ [msg]) (u_failures f).

Definition u_failure (msg : string) (f : uframe) : uframe :=
  UFrame (u_mach f) (keeperUsers f) (externalUsers f)
         (u_successes f) (u_failures f ++ [msg]).

(** Lines 226-229. *)
Definition collectUsers (us : list User) : gmap string User :=
  foldl (λ acc user, <[User_Id user := user]> acc) ∅ us.

(** Lines 236-239 (and 333-336): target users by case-folded email. *)
Definition userLookup (line : nat) (objs : list scimUser)
    (users : gmap string ptr) : gmap string ptr :=
  foldl (λ acc kv, <[fold_String (scimUser_Email (objs !!! kv.2)) := kv.2]> acc) ∅
        (ranged line 0 users).

(** Lines 246-261. *)
Definition userDiff (keeperUser : scimUser) (user : User) : list (string * any) :=
  (if bool_decide (scimUser_ExternalId keeperUser ≠ User_Id user)
   then [("externalId", AString (User_Id user))] else []) ++
  (if bool_decide (scimUser_FullName keeperUser ≠ User_FullName user)
   then [("displayName", AString (User_FullName user))] else []) ++
  (if bool_decide (scimUser_LastName keeperUser ≠ User_LastName user)
   then [("name.familyName", AString (User_LastName user))] else []) ++
  (if bool_decide (scimUser_FirstName keeperUser ≠ User_FirstName user)
   then [("name.givenName", AString (User_FirstName user))] else []) ++
  (if bool_decide (scimUser_Active keeperUser ≠ User_Active user)
   then [("active", ABool (User_Active user))] else []).

(** Lines 270-274: the fields a successful patch writes through the
    pointer. *)
Definition updatedUser (keeperUser : scimUser) (user : User) : scimUser :=
  {| scimUser_Id := scimUser_Id keeperUser;
     scimUser_ExternalId := User_Id user;
     scimUser_Email := scimUser_Email keeperUser;
     scimUser_FullName := User_FullName user;
     scimUser_FirstName := User_FirstName user;
     scimUser_LastName := User_LastName user;
     scimUser_Active := User_Active user;
     scimUser_Groups := scimUser_Groups keeperUser |}.

(** Lines 262-279. *)
Definition patchUser (p : ptr) (user : User) (f : uframe) : uframe :=
  let keeperUser := userObjs (u_mach f) !!! p in
  let value := userDiff keeperUser user in
  if bool_decide (0 < length value)%nat then
    let r := s_patchResource "Users" (scimUser_Id keeperUser)
                             (replacePayload value) (u_mach f) in
    match r.1 with
    | None =>
        u_success ("SCIM updated user " +:+ quoted (User_Email user))
          (u_with_mach f
             (set_userObjs (<[p := updatedUser keeperUser user]> (userObjs r.2)) r.2))
    | Some er1 =>
        u_failure ("PATCH user " +:+ quoted (User_Email user) +:+ " error: " +:+ er1)
          (u_with_mach f r.2)
    end
  else f.

(** Lines 241-282: the body of the matching loop. *)
Definition matchUser (lookup : gmap string ptr) (f : uframe) (user : User) : uframe :=
  match lookup !! fold_String (User_Email user) with
  | None => f
  | Some p =>
      let f1 := patchUser p user f in
      let keeperUser := userObjs (u_mach f1) !!! p in
      UFrame (u_mach f1)
             (delete (scimUser_Id keeperUser) (keeperUsers f1))
             (delete (User_Id user) (externalUsers f1))
             (u_successes f1) (u_failures f1)
  end.

(** Lines 235-283.  The lookup is built from [s.scimUsers], once. *)
Definition matchUsers (f : uframe) : uframe :=
  if bool_decide (0 < size (keeperUsers f) ∧ 0 < size (externalUsers f))%nat then
    let lookup := userLookup 237 (userObjs (u_mach f))
                             (default ∅ (scimUsers (u_mach f))) in
    foldl (λ f kv, matchUser lookup f kv.2) f (ranged 241 0 (externalUsers f))
  else f.

Definition storeUser (au : scimUser) m : machine Server :=
  let p := length (userObjs m) in
  set_scimUsers ((λ u, <[scimUser_Id au := p]> u) <$> scimUsers m)
                (set_userObjs (userObjs m ++ [au]) m).

Definition userPayload (user : User) : any :=
  AObject [("schemas", AStrings ["urn:ietf:params:scim:schemas:core:2.0:User";
                                 "urn:ietf:params:scim:schemas:extension:enterprise:2.0:User"]);
           ("userName", AString (User_Email user));
           ("externalId", AString (User_Id user));
           ("displayName", AString (User_FullName user));
           ("name", AObject [("givenName", AString (User_FirstName user));
                             ("familyName", AString (User_LastName user))]);
           ("active", ABool (User_Active user))].

(** Lines 286-309: the body of the loop over the unmatched source users. *)
Definition createUser (f : uframe) (user : User) : uframe :=
  if negb (User_Active user) then f
  else
    let r := s_postResource "Users" (userPayload user) (u_mach f) in
    match r.1 with
    | inl payload =>
        let m1 := match parseScimUser payload with
                  | Some au => storeUser au r.2
                  | None => r.2
                  end in
        u_success ("SCIM added user " +:+ quoted (User_Email user)) (u_with_mach f m1)
    | inr er1 =>
        u_failure ("POST user " +:+ quoted (User_Email user) +:+ " error: " +:+ er1)
                  (u_with_mach f r.2)
    end.

(** Lines 312-326: the body of the loop over the unmatched target users. *)
Definition deleteUser (f : uframe) (kv : string * ptr) : uframe :=
  let user := userObjs (u_mach f) !!! kv.2 in
  let s := u_mach f in
  if negb (scimUser_Active user) then f
  else if bool_decide (destructive s >= 0) then
    let r := s_deleteResource "Users" (scimUser_Id user) s in
    match r.1 with
    | None =>
        u_success ("SCIM deleted user " +:+ quoted (scimUser_Email user))
          (u_with_mach f (set_scimUsers (delete (scimUser_Id user) <$> scimUsers r.2) r.2))
    | Some er1 =>
        u_failure ("DELETE user " +:+ quoted (scimUser_Email user) +:+ " error: " +:+ er1)
          (u_with_mach f r.2)
    end
  else
    u_failure ("DELETE user " +:+ quoted (scimUser_Email user)
               +:+ ": delete skipped since the " +:+ quoted "Safe Mode" +:+ " is enforced") f.

Definition createUsers (f : uframe) : uframe :=
  foldl createUser f (ranged 286 0 (externalUsers f)).*2.

Definition deleteUsers (f : uframe) : uframe :=
  foldl deleteUser f (ranged 312 0 (keeperUsers f)).

(** Lines 216-329. *)
Definition syncUsers (src : Source) m : phaseResult * machine Server :=
  match scimUsers m with
  | None => (([], [], Some "SCIM users were not populated"), m)
  | Some users =>
      let f0 := UFrame m (copyMap 222 users) (collectUsers (Users src)) [] [] in
      let f3 := deleteUsers (createUsers (matchUsers f0)) in
      ((u_successes f3, u_failures f3, None), u_mach f3)
  end.

(** ** [syncMembership] *)

Record mframe := MFrame {
  m_mach : machine Server;
  m_successes : list string;
  m_failures : list string;
}.

Definition m_failure (msg : string) (f : mframe) : mframe :=
  MFrame (m_mach f) (m_successes f) (m_failures f ++ [msg]).

(** The declaration of [Set] is not among the files at hand.  The code takes
    its [len] and ranges over it with one variable, the element: it is a map
    keyed by its elements, so ranging over it, and [ToArray], draw their
    order as a map does. *)
Definition ranged_set (line nth : nat) (x : gset string) : list string :=
  (ranged line nth (gset_to_gmap tt x)).*1.

(** Lines 337-340: source group identifier to target group identifier. *)
Definition keeperGroupMap (objs : list scimGroup) (groups : gmap string ptr)
  : gmap string string :=
  foldl (λ acc kv, <[scimGroup_ExternalId (objs !!! kv.2) := scimGroup_Id (objs !!! kv.2)]> acc)
        ∅ (ranged 338 0 groups).

(** Lines 349-359: the loop over [user.Groups], from
    [MakeSet(keeperUser.Groups)] and an empty [addGroups]. *)
Definition translateStep (groupMap : gmap string string)
    (acc : gset string * list string) (externalGroupId : string)
  : gset string * list string :=
  match groupMap !! externalGroupId with
  | Some keeperGroupId =>
      if bool_decide (keeperGroupId ∈ acc.1)
      then (acc.1 ∖ {[keeperGroupId]}, acc.2)
      else (acc.1, acc.2 ++ [keeperGroupId])
  | None => acc
  end.

Definition membershipDelta (groupMap : gmap string string)
    (keeperUser : scimUser) (user : User) : gset string * list string :=
  foldl (translateStep groupMap)
        (list_to_set (scimUser_Groups keeperUser), []) (User_Groups user).

(** Lines 364-378: the body of the loop that filters the removals when
    [s.destructive <= 0]; the accumulator is [(removeGroups, failures)]. *)
Definition filterRemove m (user : User)
    (acc : list string * list string) (keeperGroupId : string)
  : list string * list string :=
  match default ∅ (scimGroups m) !! keeperGroupId with
  | Some gp =>
      let keeperGroup := groupObjs m !!! gp in
      if len_pos (scimGroup_ExternalId keeperGroup) then (acc.1 ++ [keeperGroupId], acc.2)
      else if verbose m then
        (acc.1, acc.2 ++ ["Remove team " +:+ quoted (scimGroup_Name keeperGroup)
                          +:+ " from user " +:+ quoted (User_Email user)
                          +:+ " skipped. Team is not controlled by SCIM"])
      else acc
  | None =>
      if verbose m then
        (acc.1, acc.2 ++ ["Remove team Id " +:+ quoted keeperGroupId
                          +:+ " from user " +:+ quoted (User_Email user)
                          +:+ " skipped. Team is outside of SCIM node"])
      else acc
  end.

(** Lines 360-380: [removeGroups] and the failures noted on the way. *)
Definition removeList (nth : nat) m (user : User) (keeperUserGroups : gset string)
  : list string * list string :=
  if bool_decide (0 < size keeperUserGroups)%nat then
    if bool_decide (destructive m > 0) then (ranged_set 362 nth keeperUserGroups, [])
    else foldl (filterRemove m user) ([], []) (ranged_set 364 nth keeperUserGroups)
  else ([], []).

Definition memberValues (groupIds : list string) : list any :=
  (λ groupId, AObject [("value", AString groupId)]) <$> groupIds.

Definition membershipOp (op : string) (values : list any) : any :=
  AObject [("op", AString op); ("path", AString "groups"); ("value", AList values)].

(** Lines 382-412: the operations of the patch. *)
Definition membershipOperations (d : Z) (addGroups removeGroups : list string) : list any :=
  (if bool_decide (0 < length (memberValues addGroups))%nat
   then [membershipOp "add" (memberValues addGroups)] else []) ++
  (if bool_decide (0 < length (memberValues removeGroups))%nat
   then if bool_decide (d >= 0)
        then [membershipOp "remove" (memberValues removeGroups)] else []
   else []).

Definition membershipPayload (operations : list any) : any :=
  AObject [("schemas", AStrings ["urn:ietf:params:scim:api:messages:2.0:PatchOp"]);
           ("Operations", AList operations)].

(** Lines 402-412: the note left when safe mode keeps the removals out of
    the patch. *)
Definition suppressedNote (d : Z) (user : User) (removeGroups : list string) : list string :=
  if bool_decide (0 < length (memberValues removeGroups))%nat && negb (bool_decide (d >= 0))
  then ["REMOVE membership for user " +:+ quoted (User_Email user)
        +:+ " skipped since the " +:+ quoted "Safe Mode" +:+ " is enforced"]
  else [].

(** Lines 381-423. *)
Definition patchMembership (keeperUser : scimUser) (user : User)
    (addGroups removeGroups : list string) (f : mframe) : mframe :=
  if bool_decide (0 < length addGroups)%nat || bool_decide (0 < length removeGroups)%nat then
    let d := destructive (m_mach f) in
    let failures := m_failures f ++ suppressedNote d user removeGroups in
    let r := s_patchResource "Users" (scimUser_Id keeperUser)
               (membershipPayload (membershipOperations d addGroups removeGroups))
               (m_mach f) in
    match r.1 with
    | None =>
        MFrame r.2
          (m_successes f ++
             ["SCIM changed user " +:+ quoted (scimUser_Email keeperUser)
              +:+ " membership: " +:+ pretty (length addGroups) +:+ " added; "
              +:+ pretty (length removeGroups) +:+ " removed"])
          failures
    | Some er1 =>
        MFrame r.2 (m_successes f)
          (failures ++
             ["PATCH user " +:+ quoted (scimUser_Email keeperUser)
              +:+ " membership error: " +:+ er1])
    end
  else f.

(** Lines 344-424: the callback of [s.source.Users], called for the [nth]
    time. *)
Definition syncMember (lookup : gmap string ptr) (groupMap : gmap string string)
    (f : mframe) (nth : nat) (user : User) : mframe :=
  match lookup !! fold_String (User_Email user) with
  | None => f
  | Some p =>
      let keeperUser := userObjs (m_mach f) !!! p in
      let delta := membershipDelta groupMap keeperUser user in
      let rm := removeList nth (m_mach f) user delta.1 in
      patchMembership keeperUser user delta.2 rm.1
        (MFrame (m_mach f) (m_successes f) (m_failures f ++ rm.2))
  end.

(** Lines 331-427.  The function never assigns [err]. *)
Definition syncMembership (src : Source) m : phaseResult * machine Server :=
  let lookup := userLookup 334 (userObjs m) (default ∅ (scimUsers m)) in
  let groupMap := keeperGroupMap (groupObjs m) (default ∅ (scimGroups m)) in
  let f := foldl (λ f iu, syncMember lookup groupMap f iu.1 iu.2) (MFrame m [] [])
                 (imap pair (Users src)) in
  ((m_successes f, m_failures f, None), m_mach f).

(** ** [Sync] *)

(** Modelled from the spec: [populateScim] is not among the files at hand.
    It "loads Target Directory's current groups/users": the records the
    server lists get fresh objects, and the two maps are keyed by target
    identifier, as lines 184 and 303 key them. *)
Definition indexById {A : Type} (id : A → string) (objs : list A) : gmap string ptr :=
  foldl (λ acc ix, <[id ix.2 := ix.1]> acc) ∅ (imap pair objs).

Definition populateScim m : option string * machine Server :=
  let r := loadScim (server m) in
  match r.1 with
  | inl (users, groups) =>
      (None,
       Machine (Some (indexById scimUser_Id users)) (Some (indexById scimGroup_Id groups))
               (verbose m) (updateUsers m) (destructive m) users groups r.2 (calls m))
  | inr err =>
      (Some err,
       Machine (scimUsers m) (scimGroups m) (verbose m) (updateUsers m) (destructive m)
               (userObjs m) (groupObjs m) r.2 (calls m))
  end.

Definition emptyStat : SyncStat := Build_SyncStat [] [] [] [] [] [].

(** Lines 51-79.  The result is [(stat, err)], the source after [Populate]
    and the machine after the run; [stat] is nil when [err] is not. *)
Definition Sync (src : Source) m
  : (option SyncStat * option string) * Source * machine Server :=
  let pop := Populate src in
  match pop.1 with
  | Some err => ((None, Some err), pop.2, m)
  | None =>
      let src := pop.2 in
      let m := if LoadErrors src then set_destructive (-1) m else m in
      let ps := populateScim m in
      match ps.1 with
      | Some err => ((None, Some err), src, ps.2)
      | None =>
          let g := syncGroups src ps.2 in
          match g.1 with
          | (_, _, Some err) => ((None, Some err), src, g.2)
          | (SuccessGroups, FailedGroups, None) =>
              let u := if updateUsers g.2 then syncUsers src g.2
                       else (([], [], None), g.2) in
              match u.1 with
              | (_, _, Some err) => ((None, Some err), src, u.2)
              | (SuccessUsers, FailedUsers, None) =>
                  let ms := syncMembership src u.2 in
                  match ms.1 with
                  | (_, _, Some err) => ((None, Some err), src, ms.2)
                  | (SuccessMembership, FailedMembership, None) =>
                      ((Some (Build_SyncStat SuccessUsers FailedUsers
                                             SuccessGroups FailedGroups
                                             SuccessMembership FailedMembership),
                        None), src, ms.2)
                  end
              end
          end
      end
  end.

End Engine.

Arguments gframe Server : clear implicits.
Arguments uframe Server : clear implicits.
Arguments mframe Server : clear implicits.

(** ** Concrete collaborators

    The theorems of the engine hold for every transport, source and runtime.
    The instances below are one choice of each, on which the engine can be
    run. *)

(** An identity source that has been populated: [Populate] finds the same
    snapshot again. *)
Record snapshot := Snapshot {
  snap_users : list User;
  snap_groups : list Group;
  snap_loadErrors : bool;
}.

#[export] Instance snapshot_source : ICrmDataSource snapshot := {|
  Users := snap_users;
  Groups := snap_groups;
  Populate := λ src, (None, src);
  LoadErrors := snap_loadErrors;
|}.

(** Case folding on ASCII letters, where [cases.Fold] lowers the case. *)
Definition foldAscii (c : Ascii.ascii) : Ascii.ascii :=
  let n := Ascii.nat_of_ascii c in
  if bool_decide (65 ≤ n ∧ n ≤ 90)%nat then Ascii.ascii_of_nat (n + 32) else c.

Fixpoint foldAsciiString (x : string) : string :=
  match x with
  | EmptyString => EmptyString
  | String c rest => String (foldAscii c) (foldAsciiString rest)
  end.

(** A runtime whose [range] follows the order of [map_to_list]. *)
Definition canonicalRuntime : Runtime := {|
  fold_String := foldAsciiString;
  ranged := λ V _ _ m, map_to_list m;
  ranged_perm := λ V _ _ m, reflexivity (map_to_list m);
|}.

(** Modelled from the spec: the Target Directory, "a key-value store of
    provisioned users and groups" that "supports create, patch (partial
    attribute replace), and delete", with "patch payloads [that] use a
    PATCH-style operation list".  The transport of the repository, which
    talks to the real one, is not among the files at hand. *)
Record directory := Directory {
  dir_users : list scimUser;
  dir_groups : list scimGroup;
  dir_next : nat;
}.

Definition field (key : string) (v : any) : option any :=
  match v with
  | AObject kvs => snd <$> find (λ kv, bool_decide (kv.1 = key)) kvs
  | _ => None
  end.

Definition stringField (key : string) (v : any) : option string :=
  match field key v with Some (AString x) => Some x | _ => None end.

Definition boolField (key : string) (v : any) : option bool :=
  match field key v with Some (ABool b) => Some b | _ => None end.

Definition listField (key : string) (v : any) : list any :=
  match field key v with Some (AList l) => l | _ => [] end.

Definition replaceGroup (value : any) (g : scimGroup) : scimGroup :=
  {| scimGroup_Id := scimGroup_Id g;
     scimGroup_ExternalId := default (scimGroup_ExternalId g) (stringField "externalId" value);
     scimGroup_Name := default (scimGroup_Name g) (stringField "displayName" value) |}.

Definition replaceUser (value : any) (u : scimUser) : scimUser :=
  {| scimUser_Id := scimUser_Id u;
     scimUser_ExternalId := default (scimUser_ExternalId u) (stringField "externalId" value);
     scimUser_Email := scimUser_Email u;
     scimUser_FullName := default (scimUser_FullName u) (stringField "displayName" value);
     scimUser_FirstName := default (scimUser_FirstName u) (stringField "name.givenName" value);
     scimUser_LastName := default (scimUser_LastName u) (stringField "name.familyName" value);
     scimUser_Active := default (scimUser_Active u) (boolField "active" value);
     scimUser_Groups := scimUser_Groups u |}.

Definition with_groups (gs : list string) (u : scimUser) : scimUser :=
  {| scimUser_Id := scimUser_Id u; scimUser_ExternalId := scimUser_ExternalId u;
     scimUser_Email := scimUser_Email u; scimUser_FullName := scimUser_FullName u;
     scimUser_FirstName := scimUser_FirstName u; scimUser_LastName := scimUser_LastName u;
     scimUser_Active := scimUser_Active u; scimUser_Groups := gs |}.

Definition memberIds (op : any) : list string :=
  omap (stringField "value") (listField "value" op).

(** One operation of a patch, on a group and on a user. *)
Definition applyGroupOp (g : scimGroup) (op : any) : scimGroup :=
  match stringField "op" op, field "value" op with
  | Some "replace", Some value => replaceGroup value g
  | _, _ => g
  end.

Definition applyUserOp (u : scimUser) (op : any) : scimUser :=
  match stringField "op" op with
  | Some "replace" =>
      match field "value" op with Some value => replaceUser value u | None => u end
  | Some "add" =>
      with_groups (scimUser_Groups u ++ list_difference (remove_dups (memberIds op))
                                                        (scimUser_Groups u)) u
  | Some "remove" => with_groups (list_difference (scimUser_Groups u) (memberIds op)) u
  | _ => u
  end.

Definition notFound : string := "404 Not Found".

Definition dir_patch (kind id : string) (payload : any) (d : directory)
  : option string * directory :=
  let ops := listField "Operations" payload in
  if bool_decide (kind = "Groups") then
    if bool_decide (id ∈ scimGroup_Id <$> dir_groups d) then
      (None, Directory (dir_users d)
               ((λ g, if bool_decide (scimGroup_Id g = id) then foldl applyGroupOp g ops else g)
                  <$> dir_groups d) (dir_next d))
    else (Some notFound, d)
  else
    if bool_decide (id ∈ scimUser_Id <$> dir_users d) then
      (None, Directory
               ((λ u, if bool_decide (scimUser_Id u = id) then foldl applyUserOp u ops else u)
                  <$> dir_users d) (dir_groups d) (dir_next d))
    else (Some notFound, d).

(** A created record gets the next free identifier and is returned with it. *)
Definition dir_post (kind : string) (payload : any) (d : directory)
  : (any + string) * directory :=
  let id := pretty (dir_next d) in
  let created := match payload with
                 | AObject kvs => AObject (("id", AString id) :: kvs)
                 | _ => AObject [("id", AString id)]
                 end in
  if bool_decide (kind = "Groups") then
    (inl created,
     Directory (dir_users d)
       (dir_groups d ++ [{| scimGroup_Id := id;
                            scimGroup_ExternalId := default "" (stringField "externalId" payload);
                            scimGroup_Name := default "" (stringField "displayName" payload) |}])
       (S (dir_next d)))
  else
    let name := default (AObject []) (field "name" payload) in
    (inl created,
     Directory
       (dir_users d ++ [{| scimUser_Id := id;
                           scimUser_ExternalId := default "" (stringField "externalId" payload);
                           scimUser_Email := default "" (stringField "userName" payload);
                           scimUser_FullName := default "" (stringField "displayName" payload);
                           scimUser_FirstName := default "" (stringField "givenName" name);
                           scimUser_LastName := default "" (stringField "familyName" name);
                           scimUser_Active := default true (boolField "active" payload);
                           scimUser_Groups := [] |}])
       (dir_groups d) (S (dir_next d))).

(** Deleting a group also ends the memberships in it. *)
Definition dir_delete (kind id : string) (d : directory) : option string * directory :=
  if bool_decide (kind = "Groups") then
    if bool_decide (id ∈ scimGroup_Id <$> dir_groups d) then
      (None, Directory
               ((λ u, with_groups (list_difference (scimUser_Groups u) [id]) u) <$> dir_users d)
               (filter (λ g, scimGroup_Id g ≠ id) (dir_groups d)) (dir_next d))
    else (Some notFound, d)
  else
    if bool_decide (id ∈ scimUser_Id <$> dir_users d) then
      (None, Directory (filter (λ u, scimUser_Id u ≠ id) (dir_users d))
                       (dir_groups d) (dir_next d))
    else (Some notFound, d).

Definition dir_parseScimGroup (v : any) : option scimGroup :=
  id ← stringField "id" v;
  Some {| scimGroup_Id := id;
          scimGroup_ExternalId := default "" (stringField "externalId" v);
          scimGroup_Name := default "" (stringField "displayName" v) |}.

Definition dir_parseScimUser (v : any) : option scimUser :=
  id ← stringField "id" v;
  let name := default (AObject []) (field "name" v) in
  Some {| scimUser_Id := id;
          scimUser_ExternalId := default "" (stringField "externalId" v);
          scimUser_Email := default "" (stringField "userName" v);
          scimUser_FullName := default "" (stringField "displayName" v);
          scimUser_FirstName := default "" (stringField "givenName" name);
          scimUser_LastName := default "" (stringField "familyName" name);
          scimUser_Active := default true (boolField "active" v);
          scimUser_Groups := [] |}.

#[export] Instance directory_api : ScimApi directory := {|
  patchResource := dir_patch;
  postResource := dir_post;
  deleteResource := dir_delete;
  parseScimGroup := dir_parseScimGroup;
  parseScimUser := dir_parseScimUser;
  loadScim := λ d, (inl (dir_users d, dir_groups d), d);
|}.

(** A directory behind a connection that carries [budget] more requests and
    then fails every create, patch and delete; listing the records is served
    throughout. *)
Record outage := Outage {
  budget : nat;
  behind : directory;
}.

Definition unavailable : string := "503 Service Unavailable".

#[export] Instance outage_api : ScimApi outage := {|
  patchResource := λ kind id payload o,
    match budget o with
    | O => (Some unavailable, o)
    | S n => let r := dir_patch kind id payload (behind o) in (r.1, Outage n r.2)
    end;
  postResource := λ kind payload o,
    match budget o with
    | O => (inr unavailable, o)
    | S n => let r := dir_post kind payload (behind o) in (r.1, Outage n r.2)
    end;
  deleteResource := λ kind id o,
    match budget o with
    | O => (Some unavailable, o)
    | S n => let r := dir_delete kind id (behind o) in (r.1, Outage n r.2)
    end;
  parseScimGroup := dir_parseScimGroup;
  parseScimUser := dir_parseScimUser;
  loadScim := λ o, (inl (dir_users (behind o), dir_groups (behind o)), o);
|}.

(** A machine that has not run yet. *)
Definition newSync (verbose updateUsers : bool) (destructive : Z) (d : directory)
  : machine directory :=
  Machine None None verbose updateUsers destructive [] [] d [].

(** ** Inputs on which the engine is run below *)

Definition targetUser (id externalId email : string) (groups : list string) : scimUser :=
  {| scimUser_Id := id; scimUser_ExternalId := externalId; scimUser_Email := email;
     scimUser_FullName := "Ann Lee"; scimUser_FirstName := "Ann";
     scimUser_LastName := "Lee"; scimUser_Active := true; scimUser_Groups := groups |}.

Definition sourceUser (id email : string) (groups : list string) : User :=
  {| User_Id := id; User_Email := email; User_FullName := "Ann Lee";
     User_FirstName := "Ann"; User_LastName := "Lee"; User_Active := true;
     User_Groups := groups |}.

(** The users were loaded, the groups never were; full destructive mode.  The
    target user is in team [t1], the source user in no group. *)
Definition nilGroupsMachine : machine directory :=
  Machine (Some {["k1" := 0%nat]}) None false false 1
          [targetUser "k1" "u1" "ann@example.com" ["t1"]] []
          (Directory [targetUser "k1" "u1" "ann@example.com" ["t1"]] [] 0) [].

Definition nilGroupsSource : snapshot :=
  Snapshot [sourceUser "u1" "ann@example.com" []] [] false.

(** A directory with one team, provisioned from the source group [g1], and
    one user, provisioned from the source user [u1], who is in the team. *)
Definition engTeam : scimGroup :=
  {| scimGroup_Id := "t1"; scimGroup_ExternalId := "g1"; scimGroup_Name := "Eng" |}.

Definition annInEng : scimUser := targetUser "k1" "u1" "ann@example.com" ["t1"].

Definition engDirectory : directory := Directory [annInEng] [engTeam] 0.

Definition engGroup : Group := {| Group_Id := "g1"; Group_Name := "Eng" |}.

(** The source user has left the group. *)
Definition annLeftEng : snapshot :=
  Snapshot [sourceUser "u1" "ann@example.com" []] [engGroup] false.

(** The source user is in the group, and the crawl lists the group twice
    for that user (it appends the top group once for every path that reaches
    a member: directly and through a nested group). *)
Definition annTwiceInEng : snapshot :=
  Snapshot [sourceUser "u1" "ann@example.com" ["g1"; "g1"]] [engGroup] false.

(** The machine once [populateScim] has loaded [engDirectory]. *)
Definition loadedEng (verbose updateUsers : bool) (destructive : Z) : machine directory :=
  (populateScim (newSync verbose updateUsers destructive engDirectory)).2.

(** The source group of [engTeam] under a new name. *)
Definition engRenamed : Group := {| Group_Id := "g1"; Group_Name := "Engineering" |}.

Definition engRenamedSource : snapshot := Snapshot [] [engRenamed] false.

(** Two source users whose emails differ in case only. *)
Definition annLower : User := sourceUser "u1" "ann@example.com" [].
Definition annUpper : User := sourceUser "u2" "Ann@Example.com" [].

Definition twoAnns : snapshot := Snapshot [annLower; annUpper] [engGroup] false.

(** A crawl that could not resolve one of the configured entries, and found
    nothing of what [engDirectory] holds. *)
Definition partialCrawl : snapshot := Snapshot [] [] true.

(** [engDirectory] loaded over a connection that fails every request. *)
Definition loadedEngDown : machine outage :=
  (populateScim (Machine None None false true 0 [] [] (Outage 0 engDirectory) [])).2.

(** A team created by hand (no [ExternalId]) and two source groups that both
    carry its name. *)
Definition handMadeEng : directory :=
  Directory [] [{| scimGroup_Id := "t1"; scimGroup_ExternalId := "";
                   scimGroup_Name := "Eng" |}] 0.

Definition twoEngs : snapshot :=
  Snapshot [] [{| Group_Id := "g1"; Group_Name := "Eng" |};
               {| Group_Id := "g2"; Group_Name := "Eng" |}] false.

(** ** What a loop contributes

    Every loop of the engine appends to three logs: the requests sent, the
    success entries and the failure entries.  An [effect] is what one turn of
    a loop appends. *)
Record effect := Effect {
  e_calls : list Call;
  e_successes : list string;
  e_failures : list string;
}.

Definition effect_app (a b : effect) : effect :=
  Effect (e_calls a ++ e_calls b) (e_successes a ++ e_successes b)
         (e_failures a ++ e_failures b).

Definition no_effect : effect := Effect [] [] [].

Definition effects (es : list effect) : effect := foldr effect_app no_effect es.

Definition g_log {Server : Type} (f : gframe Server) : effect :=
  Effect (calls (g_mach f)) (g_successes f) (g_failures f).

Definition u_log {Server : Type} (f : uframe Server) : effect :=
  Effect (calls (u_mach f)) (u_successes f) (u_failures f).

Definition m_log {Server : Type} (f : mframe Server) : effect :=
  Effect (calls (m_mach f)) (m_successes f) (m_failures f).

(** ** The deletion policy, in the words of the specification *)

Inductive verdict := Deleted | SkippedNotControlled | SkippedSafeMode.

(** "[destructiveMode > 0]: delete unconditionally.  [destructiveMode == 0]:
    delete only if the target group carries a non-empty [externalId];
    otherwise skip.  [destructiveMode < 0] (safe mode): never delete." *)
Definition groupDeletionPolicy (destructiveMode : Z) (target : scimGroup) : verdict :=
  if bool_decide (destructiveMode > 0) then Deleted
  else if bool_decide (destructiveMode = 0) then
    if bool_decide (scimGroup_ExternalId target ≠ "") then Deleted
    else SkippedNotControlled
  else SkippedSafeMode.

(** What the loop over the unmatched target groups may append for the
    target group at [kv.2], stored under [kv.1], given the verdict of the
    policy on it. *)
Definition deleteGroup_spec (destructiveMode : Z) (verbose : bool)
    (objs : list scimGroup) (kv : string * ptr) (e : effect) : Prop :=
  match groupDeletionPolicy destructiveMode (objs !!! kv.2) with
  | Deleted =>
      e_calls e = [CDelete "Groups" kv.1] ∧
      ((∃ note, e_successes e = [note] ∧ e_failures e = []) ∨
       (∃ note, e_successes e = [] ∧ e_failures e = [note]))
  | SkippedNotControlled =>
      e_calls e = [] ∧ e_successes e = [] ∧
      if verbose then ∃ note, e_failures e = [note] else e_failures e = []
  | SkippedSafeMode =>
      e_calls e = [] ∧ e_successes e = [] ∧ ∃ note, e_failures e = [note]
  end.

(** Either one success entry or one failure entry: the outcome of a request. *)
Definition one_outcome (e : effect) : Prop :=
  (∃ note, e_successes e = [note] ∧ e_failures e = []) ∨
  (∃ note, e_successes e = [] ∧ e_failures e = [note]).

(** What the loop over the unmatched source users may append for [user]:
    "create only if the source user's active flag is true". *)
Definition createUser_spec (user : User) (e : effect) : Prop :=
  if User_Active user
  then e_calls e = [CPost "Users" (userPayload user)] ∧ one_outcome e
  else e = no_effect.

(** What the loop over the unmatched target users may append for the target
    user at [kv.2]: "deletion gated purely by [destructiveMode >= 0]";
    "inactive unmatched target users are left untouched". *)
Definition deleteUser_spec (destructiveMode : Z) (objs : list scimUser)
    (kv : string * ptr) (e : effect) : Prop :=
  let target := objs !!! kv.2 in
  if scimUser_Active target then
    if bool_decide (destructiveMode >= 0)
    then e_calls e = [CDelete "Users" (scimUser_Id target)] ∧ one_outcome e
    else e_calls e = [] ∧ e_successes e = [] ∧ ∃ note, e_failures e = [note]
  else e = no_effect.

(** A request deletes when it is a DELETE, or a PATCH with a [remove]
    operation (the removal of memberships). *)
Definition removesMembership (payload : any) : bool :=
  existsb (λ op, bool_decide (stringField "op" op = Some "remove"))
          (listField "Operations" payload).

Definition is_deletion (c : Call) : bool :=
  match c with
  | CDelete _ _ => true
  | CPatch _ _ payload => removesMembership payload
  | CPost _ _ => false
  end.

(** From [m] to [m'] the deletion policy is unchanged and no deleting request
    was sent. *)
Definition quiet {Server : Type} (m m' : machine Server) : Prop :=
  destructive m' = destructive m ∧
  ∃ new, calls m' = calls m ++ new ∧ Forall (λ c, is_deletion c = false) new.

(** The patch that only renames the target group, and the record it leaves
    in memory when it succeeds. *)
Definition renamePatch (target : scimGroup) (group : Group) : Call :=
  CPatch "Groups" (scimGroup_Id target)
         (replacePayload [("displayName", AString (Group_Name group))]).

Definition renamedGroup (target : scimGroup) (group : Group) : scimGroup :=
  {| scimGroup_Id := scimGroup_Id target;
     scimGroup_ExternalId := Group_Id group;
     scimGroup_Name := Group_Name group |}.

(** The fields of a target user that the engine never writes. *)
Definition sameIdentity (target r : scimUser) : Prop :=
  scimUser_Id r = scimUser_Id target ∧
  scimUser_Email r = scimUser_Email target ∧
  scimUser_Groups r = scimUser_Groups target.

(** The request of a turn of the user matching loop that finds the record
    [r] for the source user [user]: none when nothing differs. *)
Definition userPatch (r : scimUser) (user : User) : list Call :=
  if decide (userDiff r user = []) then []
  else [CPatch "Users" (scimUser_Id r) (replacePayload (userDiff r user))].

(** ** The membership delta, in the words of the specification *)

(** "translate the source user's source-group-identifier list into target
    group identifiers via the target groups' [externalId] mapping (source
    group ids with no corresponding target [externalId] are silently
    ignored)". *)
Definition translated (groupMap : gmap string string) (user : User) : list string :=
  omap (λ externalGroupId, groupMap !! externalGroupId) (User_Groups user).

(** "[toAdd] = translated source group ids not already in the target user's
    group set." *)
Definition toAdd (groupMap : gmap string string) (keeperUser : scimUser) (user : User)
  : list string :=
  filter (λ g, g ∉ scimUser_Groups keeperUser) (translated groupMap user).

(** "[candidateRemove] = target user's group ids not present in the
    translated source set." *)
Definition candidateRemove (groupMap : gmap string string) (keeperUser : scimUser)
    (user : User) : gset string :=
  list_to_set (scimUser_Groups keeperUser) ∖ list_to_set (translated groupMap user).

(** "remove only those target groups that have a non-empty [externalId]";
    "groups without one, or whose group record doesn't exist at all [...],
    are skipped". *)
Definition controlled {Server : Type} (m : machine Server) (keeperGroupId : string) : bool :=
  match default ∅ (scimGroups m) !! keeperGroupId with
  | Some gp => len_pos (scimGroup_ExternalId (groupObjs m !!! gp))
  | None => false
  end.

(** Two machines that differ at most in whether [s.scimGroups] is nil or
    empty. *)
Definition same_but_nil_groups {Server : Type} (m1 m2 : machine Server) : Prop :=
  default ∅ (scimGroups m1) = default ∅ (scimGroups m2) ∧
  scimUsers m1 = scimUsers m2 ∧ verbose m1 = verbose m2 ∧
  updateUsers m1 = updateUsers m2 ∧ destructive m1 = destructive m2 ∧
  userObjs m1 = userObjs m2 ∧ groupObjs m1 = groupObjs m2 ∧
  server m1 = server m2 ∧ calls m1 = calls m2.

(** ** The answer to a request

    What a turn of a loop contributes to the three logs, told from the
    answer the transport gives to the request of that turn. *)







Section Answers.

Context {Server : Type} `{!ScimApi Server} `{!Runtime}.









End Answers.

(** ** What a phase may touch *)

(** The resource kind a request addresses. *)
Definition call_kind (c : Call) : string :=
  match c with
  | CPatch kind _ _ => kind
  | CPost kind _ => kind
  | CDelete kind _ => kind
  end.

Definition groups_call (c : Call) : Prop := call_kind c = "Groups".

Definition users_call (c : Call) : Prop := call_kind c = "Users".

(** An operation on the memberships of a user: [add] or [remove], on the
    path [groups], of a list of group identifiers. *)
Definition is_membership_op (operation : any) : Prop :=
  ∃ op groupIds, (op = "add" ∨ op = "remove") ∧
                 operation = membershipOp op (memberValues groupIds).

(** A request of the membership phase: a PATCH of a user whose operations
    are all operations on the memberships. *)
Definition is_membership_patch (c : Call) : Prop :=
  ∃ id operations, c = CPatch "Users" id (membershipPayload operations) ∧
                   Forall is_membership_op operations.

(** A request that creates, deletes or updates the attributes of a user
    record. *)
Definition user_record_request (c : Call) : Prop :=
  (∃ payload, c = CPost "Users" payload) ∨
  (∃ id, c = CDelete "Users" id) ∨
  (∃ id value, c = CPatch "Users" id (replacePayload value)).

(** From [m] to [m'] the configuration of the run is unchanged and the
    requests sent all satisfy [P]. *)
Definition sends_only {Server : Type} (P : Call → Prop) (m m' : machine Server) : Prop :=
  verbose m' = verbose m ∧ updateUsers m' = updateUsers m ∧
  destructive m' = destructive m ∧
  ∃ new, calls m' = calls m ++ new ∧ Forall P new.

(** [s.scimUsers] and the user records, respectively [s.scimGroups] and the
    group records, are the same in [m'] as in [m]. *)
Definition users_side_kept {Server : Type} (m m' : machine Server) : Prop :=
  scimUsers m' = scimUsers m ∧ userObjs m' = userObjs m.

Definition groups_side_kept {Server : Type} (m m' : machine Server) : Prop :=
  scimGroups m' = scimGroups m ∧ groupObjs m' = groupObjs m.

(** The objects of [objs] are still there in [objs'], under the fields
    [same] compares. *)
Definition objects_kept {A : Type} (same : A → A → Prop) (objs objs' : list A) : Prop :=
  ∀ p x, objs !! p = Some x → ∃ x', objs' !! p = Some x' ∧ same x x'.

Definition sameGroupId (g g' : scimGroup) : Prop := scimGroup_Id g' = scimGroup_Id g.

(** What the group reconciler, the user reconciler and the membership phase
    may do to the machine. *)
Definition group_phase {Server : Type} (m m' : machine Server) : Prop :=
  sends_only groups_call m m' ∧ users_side_kept m m' ∧
  objects_kept sameGroupId (groupObjs m) (groupObjs m').

Definition user_phase {Server : Type} (m m' : machine Server) : Prop :=
  sends_only users_call m m' ∧ groups_side_kept m m' ∧
  objects_kept sameIdentity (userObjs m) (userObjs m').

Definition membership_phase {Server : Type} (m m' : machine Server) : Prop :=
  sends_only is_membership_patch m m' ∧ users_side_kept m m' ∧ groups_side_kept m m'.

(** [s.scimGroups[k]], read through a map that may be nil. *)
Definition groupAt {Server : Type} (m : machine Server) (k : string) : option ptr :=
  scimGroups m ≫= λ groups, groups !! k.

Definition userAt {Server : Type} (m : machine Server) (k : string) : option ptr :=
  scimUsers m ≫= λ users, users !! k.

(** Closes the goals that compare the logs of a frame before and after a
    turn of a loop. *)
Ltac log_eq :=
  unfold g_log, u_log, m_log, effect_app,
    g_failure, g_success, g_with_mach, u_failure, u_success, u_with_mach,
    m_failure; simpl;
  rewrite ?(right_id_L [] (++)); repeat split; done.

(** ** Facts about the engine *)

Section EngineFacts.

Context {Server Source : Type}.
Context `{!ScimApi Server} `{!ICrmDataSource Source} `{!Runtime}.

Implicit Types (m : machine Server) (p : ptr).

Lemma effect_app_assoc (a b c : effect) :
  effect_app (effect_app a b) c = effect_app a (effect_app b c).
Proof. destruct a, b, c. unfold effect_app. simpl. by rewrite !(assoc_L (++)). Qed.

Lemma effect_app_nil_r (a : effect) : effect_app a no_effect = a.
Proof. destruct a. unfold effect_app. simpl. by rewrite !(right_id_L [] (++)). Qed.

Lemma effect_app_nil_l (a : effect) : effect_app no_effect a = a.
Proof. by destruct a. Qed.

(** A loop whose body appends an effect related to the visited item appends,
    in order, one such effect per item. *)
Lemma foldl_effects {F A : Type} (log : F → effect) (Inv : F → Prop)
    (R : A → effect → Prop) (step : F → A → F) :
  (∀ f a, Inv f → Inv (step f a) ∧ ∃ e, R a e ∧ log (step f a) = effect_app (log f) e) →
  ∀ l f, Inv f →
    Inv (foldl step f l) ∧
    ∃ es, Forall2 R l es ∧ log (foldl step f l) = effect_app (log f) (effects es).
Proof.
  intros Hstep l. induction l as [|a l IH]; intros f Hf; simpl.
  - split; [done|]. exists []. split; [constructor|]. by rewrite effect_app_nil_r.
  - destruct (Hstep f a Hf) as [Hinv (e & HR & Hlog)].
    destruct (IH _ Hinv) as [Hfin (es & HF & Hlogs)].
    split; [done|]. exists (e :: es). split; [by constructor|].
    rewrite Hlogs, Hlog. simpl. apply effect_app_assoc.
Qed.

(** *** Ranging over a map *)

Lemma elem_of_ranged {V : Type} (line nth : nat) (mp : gmap string V) k v :
  (k, v) ∈ ranged line nth mp ↔ mp !! k = Some v.
Proof. rewrite (ranged_perm V line nth mp). apply elem_of_map_to_list. Qed.

Lemma NoDup_ranged_keys {V : Type} (line nth : nat) (mp : gmap string V) :
  NoDup (ranged line nth mp).*1.
Proof. rewrite (ranged_perm V line nth mp). apply NoDup_fst_map_to_list. Qed.

Lemma ranged_empty {V : Type} (line nth : nat) : ranged line nth (∅ : gmap string V) = [].
Proof.
  apply Permutation_nil_r. rewrite (ranged_perm V line nth ∅).
  by rewrite map_to_list_empty.
Qed.

(** The last assignment to a key wins. *)
Lemma foldl_insert_lookup {A V : Type} (key : A → string) (val : A → V)
    (l : list A) (acc : gmap string V) k :
  foldl (λ acc a, <[key a := val a]> acc) acc l !! k =
    match last (filter (λ a, key a = k) l) with
    | Some a => Some (val a)
    | None => acc !! k
    end.
Proof.
  revert acc. induction l as [|a l IH]; intros acc; simpl; [done|].
  rewrite IH. rewrite filter_cons. case_decide as Hk.
  - rewrite last_cons. destruct (last _); [done|].
    by rewrite <-Hk, lookup_insert_eq.
  - destruct (last _); [done|]. by rewrite lookup_insert_ne.
Qed.

Lemma copyMap_eq {V : Type} (line : nat) (mp : gmap string V) : copyMap line mp = mp.
Proof.
  apply map_eq. intros k. unfold copyMap.
  rewrite (foldl_insert_lookup fst snd). rewrite lookup_empty.
  destruct (last _) as [[k' v]|] eqn:Hlast.
  - apply last_Some_elem_of in Hlast. apply list_elem_of_filter in Hlast as [Hk Hin].
    simpl in Hk. subst k'. apply elem_of_ranged in Hin. by rewrite Hin.
  - apply last_None in Hlast. destruct (mp !! k) as [v|] eqn:Hv; [|done].
    apply (elem_of_ranged line 0) in Hv.
    assert ((k, v) ∈ filter (λ a : string * V, a.1 = k) (ranged line 0 mp)) as Hin
      by (by apply list_elem_of_filter).
    rewrite Hlast in Hin. by apply not_elem_of_nil in Hin.
Qed.

(** *** The phases as the composition of their loops *)



(** *** The deletion policy of the group reconciler *)

Lemma len_pos_true (x : string) : len_pos x = true ↔ x ≠ "".
Proof. destruct x; simpl; split; congruence. Qed.

Lemma deleteGroup_effect (f : gframe Server) (kv : string * ptr) :
  ∃ e, deleteGroup_spec (destructive (g_mach f)) (verbose (g_mach f))
                        (groupObjs (g_mach f)) kv e ∧
       g_log (deleteGroup f kv) = effect_app (g_log f) e ∧
       destructive (g_mach (deleteGroup f kv)) = destructive (g_mach f) ∧
       verbose (g_mach (deleteGroup f kv)) = verbose (g_mach f) ∧
       groupObjs (g_mach (deleteGroup f kv)) = groupObjs (g_mach f).
Proof.
  unfold deleteGroup, deleteGroup_spec, groupDeletionPolicy.
  destruct f as [m kg eg su fa]; simpl.
  set (g := groupObjs m !!! kv.2).
  destruct (bool_decide (destructive m >= 0)) eqn:Hge.
  - apply bool_decide_eq_true in Hge.
    destruct (bool_decide (destructive m > 0)) eqn:Hgt; simpl.
    + destruct (deleteResource "Groups" kv.1 (server m)) as [[er|] srv]; simpl.
      * eexists (Effect [_] [] [_]). split; [split; [done|right; eauto]|]. log_eq.
      * eexists (Effect [_] [_] []). split; [split; [done|left; eauto]|]. log_eq.
    + apply bool_decide_eq_false in Hgt.
      rewrite (bool_decide_eq_true_2 (destructive m = 0)) by lia.
      destruct (len_pos (scimGroup_ExternalId g)) eqn:Hlen.
      * apply len_pos_true in Hlen. rewrite (bool_decide_eq_true_2 _ Hlen).
        destruct (deleteResource "Groups" kv.1 (server m)) as [[er|] srv]; simpl.
        -- eexists (Effect [_] [] [_]). split; [split; [done|right; eauto]|]. log_eq.
        -- eexists (Effect [_] [_] []). split; [split; [done|left; eauto]|]. log_eq.
      * assert (¬ scimGroup_ExternalId g ≠ "") as Hne.
        { intros Hne. apply len_pos_true in Hne. congruence. }
        rewrite (bool_decide_eq_false_2 _ Hne).
        destruct (verbose m) eqn:Hvb; simpl.
        -- eexists (Effect [] [] [_]). split; [eauto|]. log_eq.
        -- exists no_effect. split; [eauto|]. log_eq.
  - apply bool_decide_eq_false in Hge.
    rewrite (bool_decide_eq_false_2 (destructive m > 0)) by lia.
    rewrite (bool_decide_eq_false_2 (destructive m = 0)) by lia.
    eexists (Effect [] [] [_]). split; [eauto|]. log_eq.
Qed.

Lemma deleteGroups_policy_effects (f : gframe Server) :
  ∃ es,
    Forall2 (deleteGroup_spec (destructive (g_mach f)) (verbose (g_mach f))
                              (groupObjs (g_mach f))) (ranged 194 0 (keeperGroups f)) es ∧
    g_log (deleteGroups f) = effect_app (g_log f) (effects es).
Proof.
  unfold deleteGroups.
  set (d := destructive (g_mach f)). set (vb := verbose (g_mach f)).
  set (objs := groupObjs (g_mach f)).
  apply (foldl_effects g_log
           (λ f', destructive (g_mach f') = d ∧ verbose (g_mach f') = vb ∧
                  groupObjs (g_mach f') = objs)
           (deleteGroup_spec d vb objs) deleteGroup); [|done].
  intros f' kv (Hd & Hv & Ho).
  destruct (deleteGroup_effect f' kv) as (e & Hspec & Hlog & Hd' & Hv' & Ho').
  rewrite Hd, Hv, Ho in *. eauto 10.
Qed.

(** C3.  Every target group left unmatched by the three rounds is visited
    once by the deletion loop, and what the loop does with it is what the
    policy says: with [destructive > 0] a DELETE is sent; with
    [destructive = 0] a DELETE is sent exactly when the group has a non-empty
    [ExternalId], and a group without one costs no request and a failure
    entry only when [verbose]; with [destructive < 0] no DELETE is sent and
    one failure entry is appended. *)
Theorem deleteGroups_follows_policy (f : gframe Server) :
  let visited := ranged 194 0 (keeperGroups f) in
  (∀ k p, (k, p) ∈ visited ↔ keeperGroups f !! k = Some p) ∧
  NoDup visited.*1 ∧
  ∃ es,
    Forall2 (deleteGroup_spec (destructive (g_mach f)) (verbose (g_mach f))
                              (groupObjs (g_mach f))) visited es ∧
    g_log (deleteGroups f) = effect_app (g_log f) (effects es).
Proof.
  simpl. split; [intros; apply elem_of_ranged|]. split; [apply NoDup_ranged_keys|].
  apply deleteGroups_policy_effects.
Qed.

(** *** The active flag in the user reconciler *)

Lemma createUser_effect (f : uframe Server) (user : User) :
  ∃ e, createUser_spec user e ∧ u_log (createUser f user) = effect_app (u_log f) e.
Proof.
  unfold createUser, createUser_spec, one_outcome.
  destruct f as [m ku eu su fa]; simpl.
  destruct (User_Active user); simpl.
  - destruct (postResource "Users" (userPayload user) (server m)) as [[added|er] srv] eqn:Hp;
      simpl.
    + eexists (Effect [_] [_] []). split; [split; [done|left; eauto]|].
      unfold u_log, u_success, u_with_mach, effect_app; simpl.
      destruct (parseScimUser added); simpl; rewrite ?Hp; simpl;
        by rewrite ?(right_id_L [] (++)).
    + eexists (Effect [_] [] [_]). split; [split; [done|right; eauto]|].
      unfold u_log, u_failure, u_with_mach, effect_app; simpl. rewrite ?Hp; simpl.
      by rewrite ?(right_id_L [] (++)).
  - exists no_effect. split; [done|]. by rewrite effect_app_nil_r.
Qed.

Lemma deleteUser_effect (f : uframe Server) (kv : string * ptr) :
  ∃ e, deleteUser_spec (destructive (u_mach f)) (userObjs (u_mach f)) kv e ∧
       u_log (deleteUser f kv) = effect_app (u_log f) e ∧
       destructive (u_mach (deleteUser f kv)) = destructive (u_mach f) ∧
       userObjs (u_mach (deleteUser f kv)) = userObjs (u_mach f).
Proof.
  unfold deleteUser, deleteUser_spec, one_outcome.
  destruct f as [m ku eu su fa]; simpl.
  set (user := userObjs m !!! kv.2).
  destruct (scimUser_Active user); simpl.
  - destruct (bool_decide (destructive m >= 0)).
    + destruct (deleteResource "Users" (scimUser_Id user) (server m)) as [[er|] srv]; simpl.
      * eexists (Effect [_] [] [_]). split; [split; [done|right; eauto]|]. log_eq.
      * eexists (Effect [_] [_] []). split; [split; [done|left; eauto]|]. log_eq.
    + eexists (Effect [] [] [_]). split; [eauto|]. log_eq.
  - exists no_effect. split; [done|]. by rewrite effect_app_nil_r.
Qed.

(** C7.  The creation loop visits every unmatched source user once and sends
    a POST for it exactly when its active flag is set; the deletion loop
    visits every unmatched target user once, sends a DELETE for it exactly
    when it is active and [destructive >= 0], appends one failure entry and
    no request when it is active and [destructive < 0], and does nothing at
    all for an inactive one. *)
Theorem user_loops_gate_on_active (f : uframe Server) :
  let created := ranged 286 0 (externalUsers f) in
  let removed := ranged 312 0 (keeperUsers f) in
  ((∀ k user, (k, user) ∈ created ↔ externalUsers f !! k = Some user) ∧
   NoDup created.*1 ∧
   ∃ es, Forall2 createUser_spec created.*2 es ∧
         u_log (createUsers f) = effect_app (u_log f) (effects es)) ∧
  ((∀ k p, (k, p) ∈ removed ↔ keeperUsers f !! k = Some p) ∧
   NoDup removed.*1 ∧
   ∃ es, Forall2 (deleteUser_spec (destructive (u_mach f)) (userObjs (u_mach f))) removed es ∧
         u_log (deleteUsers f) = effect_app (u_log f) (effects es)).
Proof.
  simpl. split.
  - split; [intros; apply elem_of_ranged|]. split; [apply NoDup_ranged_keys|].
    unfold createUsers.
    apply (foldl_effects u_log (λ _, True) createUser_spec createUser); [|done].
    intros f' user _. split; [done|]. apply createUser_effect.
  - split; [intros; apply elem_of_ranged|]. split; [apply NoDup_ranged_keys|].
    unfold deleteUsers.
    set (d := destructive (u_mach f)). set (objs := userObjs (u_mach f)).
    apply (foldl_effects u_log
             (λ f', destructive (u_mach f') = d ∧ userObjs (u_mach f') = objs)
             (deleteUser_spec d objs) deleteUser); [|done].
    intros f' kv (Hd & Ho).
    destruct (deleteUser_effect f' kv) as (e & Hspec & Hlog & Hd' & Ho').
    rewrite Hd, Ho in *. eauto 10.
Qed.

(** *** The errors of the phases *)

Lemma createGroup_effect (f : gframe Server) (group : Group) :
  ∃ e, (e_calls e = [CPost "Groups" (groupPayload group)] ∧ one_outcome e) ∧
       g_log (createGroup f group) = effect_app (g_log f) e.
Proof.
  unfold createGroup, one_outcome. destruct f as [m kg eg su fa]; simpl.
  destruct (postResource "Groups" (groupPayload group) (server m)) as [[added|er] srv] eqn:Hp;
    simpl.
  - eexists (Effect [_] [_] []). split; [split; [done|left; eauto]|].
    unfold g_log, g_success, g_with_mach, effect_app; simpl.
    destruct (parseScimGroup added); simpl; rewrite ?Hp; simpl;
      by rewrite ?(right_id_L [] (++)).
  - eexists (Effect [_] [] [_]). split; [split; [done|right; eauto]|].
    unfold g_log, g_failure, g_with_mach, effect_app; simpl. rewrite ?Hp; simpl.
    by rewrite ?(right_id_L [] (++)).
Qed.

Lemma effects_calls {A : Type} (R : A → effect → Prop) (c : A → list Call) l es :
  (∀ a e, R a e → e_calls e = c a) →
  Forall2 R l es → e_calls (effects es) = l ≫= c.
Proof.
  intros HR. induction 1 as [|a e l es Hae _ IH]; simpl; [done|].
  by rewrite (HR _ _ Hae), IH.
Qed.

Lemma createGroups_calls (f : gframe Server) :
  calls (g_mach (createGroups f)) =
    calls (g_mach f) ++
      ((λ group, CPost "Groups" (groupPayload group)) <$> (ranged 175 0 (externalGroups f)).*2).
Proof.
  unfold createGroups.
  destruct (foldl_effects g_log (λ _, True)
              (λ group e, e_calls e = [CPost "Groups" (groupPayload group)] ∧ one_outcome e)
              createGroup) with (l := (ranged 175 0 (externalGroups f)).*2) (f := f)
    as [_ (es & HF & Hlog)]; [|done|].
  - intros f' group _. split; [done|]. apply createGroup_effect.
  - apply (f_equal e_calls) in Hlog. simpl in Hlog. rewrite Hlog. f_equal.
    rewrite (effects_calls _ (λ group, [CPost "Groups" (groupPayload group)]) _ _
               (λ a e H, proj1 H) HF).
    generalize (ranged 175 0 (externalGroups f)).*2. intros l.
    induction l as [|a l IH]; [done|]. rewrite fmap_cons, <-IH. done.
Qed.














(** *** The membership phase and nil maps *)

Lemma foldl_pointwise {A B : Type} (f g : A → B → A) (l : list B) (a : A) :
  (∀ a b, f a b = g a b) → foldl f a l = foldl g a l.
Proof.
  intros Hfg. revert a. induction l as [|b l IH]; intros a; simpl; [done|].
  by rewrite Hfg, IH.
Qed.

Lemma userLookup_empty (line : nat) (objs : list scimUser) : userLookup line objs ∅ = ∅.
Proof. unfold userLookup. by rewrite ranged_empty. Qed.

Lemma keeperGroupMap_empty (objs : list scimGroup) : keeperGroupMap objs ∅ = ∅.
Proof. unfold keeperGroupMap. by rewrite ranged_empty. Qed.

Lemma syncMember_nil_groups lookup groupMap (f1 f2 : mframe Server) nth user :
  same_but_nil_groups (m_mach f1) (m_mach f2) →
  m_successes f1 = m_successes f2 → m_failures f1 = m_failures f2 →
  let r1 := syncMember lookup groupMap f1 nth user in
  let r2 := syncMember lookup groupMap f2 nth user in
  same_but_nil_groups (m_mach r1) (m_mach r2) ∧
  m_successes r1 = m_successes r2 ∧ m_failures r1 = m_failures r2.
Proof.
  destruct f1 as [m1 s1 fa1], f2 as [m2 s2 fa2]; simpl.
  intros (Hg & Hu & Hv & Hup & Hd & Huo & Hgo & Hsrv & Hc) -> ->.
  unfold syncMember; simpl. destruct (lookup !! _) as [p|]; simpl;
    [|by repeat split].
  rewrite <-Huo.
  set (delta := membershipDelta groupMap (userObjs m1 !!! p) user).
  assert (removeList nth m1 user delta.1 = removeList nth m2 user delta.1) as <-.
  { unfold removeList. rewrite <-Hd. repeat case_bool_decide; try done.
    apply foldl_pointwise. intros acc k. unfold filterRemove.
    by rewrite Hg, Hgo, Hv. }
  unfold patchMembership; simpl. rewrite <-Hd.
  destruct (_ || _); simpl; [|by repeat split].
  unfold s_patchResource, sent; simpl. rewrite <-Hsrv, <-Hc.
  destruct (patchResource _ _ _ _) as [[er|] srv]; simpl; by repeat split.
Qed.

Lemma syncMembership_fold_nil_groups lookup groupMap (l : list (nat * User))
    (f1 f2 : mframe Server) :
  same_but_nil_groups (m_mach f1) (m_mach f2) →
  m_successes f1 = m_successes f2 → m_failures f1 = m_failures f2 →
  let r1 := foldl (λ f iu, syncMember lookup groupMap f iu.1 iu.2) f1 l in
  let r2 := foldl (λ f iu, syncMember lookup groupMap f iu.1 iu.2) f2 l in
  same_but_nil_groups (m_mach r1) (m_mach r2) ∧
  m_successes r1 = m_successes r2 ∧ m_failures r1 = m_failures r2.
Proof.
  revert f1 f2. induction l as [|[n u] l IH]; intros f1 f2 Hm Hs Hf; simpl; [done|].
  destruct (syncMember_nil_groups lookup groupMap f1 f2 n u Hm Hs Hf) as (Hm' & Hs' & Hf').
  by apply IH.
Qed.

Lemma syncMembership_no_users (src : Source) m :
  scimUsers m = None ∨ scimUsers m = Some ∅ →
  syncMembership src m = (([], [], None), m).
Proof.
  intros Hu. unfold syncMembership.
  assert (default ∅ (scimUsers m) = ∅) as -> by (by destruct Hu as [->| ->]).
  rewrite userLookup_empty.
  generalize (keeperGroupMap (groupObjs m) (default ∅ (scimGroups m))). intros groupMap.
  generalize (imap pair (Users src)). intros l.
  assert (foldl (λ f iu, syncMember ∅ groupMap f iu.1 iu.2) (MFrame m [] []) l
          = MFrame m [] []) as ->; [|done].
  generalize (MFrame m [] []). intros f.
  induction l as [|[n u] l IH]; simpl; [done|].
  unfold syncMember at 2. by rewrite lookup_empty.
Qed.

(** C9 (as amended).  [syncMembership] returns no error, whatever the state.
    When [s.scimUsers] was never populated the phase sends no request and
    appends no entry.  A nil map is read as an empty one: with a nil
    [s.scimGroups] the phase returns what it returns with an empty one, and
    sends the same requests. *)
Theorem syncMembership_never_fails (src : Source) (m : machine Server) :
  (syncMembership src m).1.2 = None ∧
  (scimUsers m = None → syncMembership src m = (([], [], None), m)) ∧
  (let r1 := syncMembership src (set_scimGroups None m) in
   let r2 := syncMembership src (set_scimGroups (Some ∅) m) in
   r1.1 = r2.1 ∧ calls r1.2 = calls r2.2 ∧ server r1.2 = server r2.2) ∧
  (let r1 := syncMembership src (set_scimUsers None m) in
   let r2 := syncMembership src (set_scimUsers (Some ∅) m) in
   r1.1 = r2.1 ∧ calls r1.2 = calls r2.2 ∧ server r1.2 = server r2.2).
Proof.
  split; [done|]. split; [intros Hu; apply syncMembership_no_users; by left|]. split.
  - simpl. unfold syncMembership; simpl.
    set (lookup := userLookup 334 (userObjs m) (default ∅ (scimUsers m))).
    set (groupMap := keeperGroupMap (groupObjs m) ∅).
    destruct (syncMembership_fold_nil_groups lookup groupMap (imap pair (Users src))
                (MFrame (set_scimGroups None m) [] [])
                (MFrame (set_scimGroups (Some ∅) m) [] []))
      as ((_ & _ & _ & _ & _ & _ & _ & Hsrv & Hc) & Hs & Hf); try done.
    by rewrite Hs, Hf, Hsrv, Hc.
  - cbv zeta. rewrite !syncMembership_no_users by (simpl; auto). done.
Qed.

(** *** Safe mode *)

Lemma quiet_refl m : quiet m m.
Proof. split; [done|]. exists []. by rewrite (right_id_L [] (++)). Qed.

Lemma quiet_trans m1 m2 m3 : quiet m1 m2 → quiet m2 m3 → quiet m1 m3.
Proof.
  intros [Hd1 (n1 & Hc1 & Hn1)] [Hd2 (n2 & Hc2 & Hn2)]. split; [congruence|].
  exists (n1 ++ n2). rewrite Hc2, Hc1, (assoc_L (++)). split; [done|].
  by apply Forall_app.
Qed.

Lemma quiet_sent m (c : Call) (srv : Server) :
  is_deletion c = false → quiet m (sent c srv m).
Proof. intros Hc. split; [done|]. exists [c]. split; [done|]. by constructor. Qed.

Lemma foldl_quiet {F A : Type} (mach : F → machine Server) (step : F → A → F) :
  (∀ f a, destructive (mach f) < 0 → quiet (mach f) (mach (step f a))) →
  ∀ l f, destructive (mach f) < 0 → quiet (mach f) (mach (foldl step f l)).
Proof.
  intros Hstep l. induction l as [|a l IH]; intros f Hd; simpl; [apply quiet_refl|].
  pose proof (Hstep f a Hd) as Hq. eapply quiet_trans; [exact Hq|].
  apply IH. destruct Hq as [-> _]. done.
Qed.

Lemma replace_is_no_deletion kind id value :
  is_deletion (CPatch kind id (replacePayload value)) = false.
Proof. reflexivity. Qed.

Lemma matchGroup_quiet matchRound lookup (f : gframe Server) group :
  quiet (g_mach f) (g_mach (matchGroup matchRound lookup f group)).
Proof.
  unfold matchGroup. destruct (lookup !! _) as [p|]; simpl; [|apply quiet_refl].
  unfold patchGroup. case_bool_decide; [|apply quiet_refl].
  unfold s_patchResource; simpl.
  destruct (patchResource _ _ _ _) as [[er|] srv]; simpl;
    apply quiet_sent, replace_is_no_deletion.
Qed.

Lemma matchRounds_quiet (f : gframe Server) :
  quiet (g_mach f) (g_mach (matchRounds f)).
Proof.
  unfold matchRounds.
  assert (∀ f r, quiet (g_mach f) (g_mach (matchRoundStep f r))) as Hround.
  { intros f' r. unfold matchRoundStep. case_bool_decide as Hsz; [apply quiet_refl|].
    clear Hsz. generalize (groupLookup r f'). intros lookup.
    generalize (ranged 134 r (externalGroups f')). intros l. revert f'.
    induction l as [|a l IH]; intros f'; simpl; [apply quiet_refl|].
    eapply quiet_trans; [apply (matchGroup_quiet r lookup f' a.2)|apply IH]. }
  simpl. eauto using quiet_trans.
Qed.

Lemma createGroups_quiet (f : gframe Server) : quiet (g_mach f) (g_mach (createGroups f)).
Proof.
  unfold createGroups. generalize (ranged 175 0 (externalGroups f)).*2. intros l.
  revert f. induction l as [|a l IH]; intros f; simpl; [apply quiet_refl|].
  eapply quiet_trans; [|apply IH].
  unfold createGroup, s_postResource; simpl.
  destruct (postResource _ _ _) as [[added|er] srv]; simpl;
    [destruct (parseScimGroup added); simpl|]; by apply quiet_sent.
Qed.

Lemma deleteGroups_quiet (f : gframe Server) :
  destructive (g_mach f) < 0 → quiet (g_mach f) (g_mach (deleteGroups f)).
Proof.
  unfold deleteGroups. apply foldl_quiet. intros f' kv Hd.
  unfold deleteGroup. rewrite bool_decide_eq_false_2 by lia. apply quiet_refl.
Qed.

Lemma matchUsers_quiet (f : uframe Server) : quiet (u_mach f) (u_mach (matchUsers f)).
Proof.
  unfold matchUsers. case_bool_decide as Hsz; [|apply quiet_refl]. clear Hsz.
  generalize (userLookup 237 (userObjs (u_mach f)) (default ∅ (scimUsers (u_mach f)))).
  intros lookup. generalize (ranged 241 0 (externalUsers f)). intros l. revert f.
  induction l as [|a l IH]; intros f; simpl; [apply quiet_refl|].
  eapply quiet_trans; [|apply IH].
  unfold matchUser. destruct (lookup !! _) as [p|]; simpl; [|apply quiet_refl].
  unfold patchUser. case_bool_decide; [|apply quiet_refl].
  unfold s_patchResource; simpl.
  destruct (patchResource _ _ _ _) as [[er|] srv]; simpl;
    apply quiet_sent, replace_is_no_deletion.
Qed.

Lemma createUsers_quiet (f : uframe Server) : quiet (u_mach f) (u_mach (createUsers f)).
Proof.
  unfold createUsers. generalize (ranged 286 0 (externalUsers f)).*2. intros l.
  revert f. induction l as [|a l IH]; intros f; simpl; [apply quiet_refl|].
  eapply quiet_trans; [|apply IH].
  unfold createUser, s_postResource; simpl.
  destruct (User_Active a); simpl; [|apply quiet_refl].
  destruct (postResource _ _ _) as [[added|er] srv]; simpl;
    [destruct (parseScimUser added); simpl|]; by apply quiet_sent.
Qed.

Lemma deleteUsers_quiet (f : uframe Server) :
  destructive (u_mach f) < 0 → quiet (u_mach f) (u_mach (deleteUsers f)).
Proof.
  unfold deleteUsers. apply foldl_quiet. intros f' kv Hd.
  unfold deleteUser. destruct (negb _); [apply quiet_refl|].
  rewrite bool_decide_eq_false_2 by lia. apply quiet_refl.
Qed.

Lemma safe_membership_is_no_deletion (d : Z) id addGroups removeGroups :
  d < 0 →
  is_deletion (CPatch "Users" id
                 (membershipPayload (membershipOperations d addGroups removeGroups))) = false.
Proof.
  intros Hd. unfold membershipOperations.
  rewrite (bool_decide_eq_false_2 (d >= 0)) by lia.
  by repeat case_bool_decide.
Qed.

Lemma syncMember_quiet lookup groupMap (f : mframe Server) nth user :
  destructive (m_mach f) < 0 →
  quiet (m_mach f) (m_mach (syncMember lookup groupMap f nth user)).
Proof.
  intros Hd. unfold syncMember. destruct (lookup !! _) as [p|]; [|apply quiet_refl].
  unfold patchMembership; simpl. destruct (_ || _); simpl; [|apply quiet_refl].
  unfold s_patchResource; simpl.
  destruct (patchResource _ _ _ _) as [[er|] srv]; simpl;
    by apply quiet_sent, safe_membership_is_no_deletion.
Qed.

Lemma syncGroups_quiet (src : Source) m :
  destructive m < 0 → quiet m (syncGroups src m).2.
Proof.
  intros Hd. unfold syncGroups. destruct (scimGroups m) as [groups|]; simpl;
    [|apply quiet_refl].
  set (f0 := GFrame m _ _ [] []).
  pose proof (matchRounds_quiet f0) as H1.
  pose proof (createGroups_quiet (matchRounds f0)) as H2.
  assert (destructive (g_mach (createGroups (matchRounds f0))) < 0) as Hd'.
  { destruct H2 as [-> _], H1 as [-> _]. done. }
  pose proof (deleteGroups_quiet _ Hd') as H3.
  change m with (g_mach f0) at 1. eauto using quiet_trans.
Qed.

Lemma syncUsers_quiet (src : Source) m :
  destructive m < 0 → quiet m (syncUsers src m).2.
Proof.
  intros Hd. unfold syncUsers. destruct (scimUsers m) as [users|]; simpl;
    [|apply quiet_refl].
  set (f0 := UFrame m _ _ [] []).
  pose proof (matchUsers_quiet f0) as H1.
  pose proof (createUsers_quiet (matchUsers f0)) as H2.
  assert (destructive (u_mach (createUsers (matchUsers f0))) < 0) as Hd'.
  { destruct H2 as [-> _], H1 as [-> _]. done. }
  pose proof (deleteUsers_quiet _ Hd') as H3.
  change m with (u_mach f0) at 1. eauto using quiet_trans.
Qed.

Lemma syncMembership_quiet (src : Source) m :
  destructive m < 0 → quiet m (syncMembership src m).2.
Proof.
  intros Hd. unfold syncMembership; simpl.
  change m with (m_mach (MFrame m [] [])) at 1.
  apply (foldl_quiet m_mach); [|done].
  intros f [n u] Hf. by apply syncMember_quiet.
Qed.

Lemma populateScim_quiet m : quiet m (populateScim m).2.
Proof.
  unfold populateScim. destruct (loadScim (server m)) as [[[users groups]|err] srv]; simpl;
    (split; [done|]); exists []; by rewrite (right_id_L [] (++)).
Qed.

(** C6.  When the source reports load errors after [Populate], [Sync] runs
    every phase with [destructive = -1], whatever was configured: the run is
    the run of a machine configured with [-1]; no DELETE and no PATCH with a
    [remove] operation is among its requests; and the machine ends with
    [destructive = -1]. *)
Theorem load_errors_force_safe_mode (src : Source) (m : machine Server) :
  (Populate src).1 = None →
  LoadErrors (Populate src).2 = true →
  Sync src m = Sync src (set_destructive (-1) m) ∧
  destructive (Sync src m).2 = -1 ∧
  ∃ new, calls (Sync src m).2 = calls m ++ new ∧
         Forall (λ c, is_deletion c = false) new.
Proof.
  intros Hpop Hload.
  split; [unfold Sync; by rewrite Hpop, Hload|].
  assert (quiet (set_destructive (-1) m) (Sync src m).2) as [Hd Hnew]; [|by rewrite Hd].
  unfold Sync. rewrite Hpop, Hload. clear Hpop Hload.
  generalize (Populate src).2. clear src. intros src.
  set (m0 := set_destructive (-1) m).
  pose proof (populateScim_quiet m0) as H0.
  destruct (populateScim m0) as [[e0|] m1]; simpl in *; [done|].
  assert (destructive m1 < 0) as Hd1 by (destruct H0 as [-> _]; simpl; lia).
  pose proof (syncGroups_quiet src m1 Hd1) as H1.
  destruct (syncGroups src m1) as [[[sg fg] [e1|]] m2]; simpl in *;
    [eauto using quiet_trans|].
  assert (destructive m2 < 0) as Hd2 by (destruct H1 as [-> _]; done).
  assert (quiet m2 (if updateUsers m2 then syncUsers src m2 else ([], [], None, m2)).2) as H2.
  { destruct (updateUsers m2); [by apply syncUsers_quiet|apply quiet_refl]. }
  destruct (if updateUsers m2 then _ else _) as [[[su fu] [e2|]] m3]; simpl in *;
    [eauto using quiet_trans|].
  assert (destructive m3 < 0) as Hd3 by (destruct H2 as [-> _]; done).
  pose proof (syncMembership_quiet src m3 Hd3) as H3.
  unfold syncMembership in *. simpl in *. eauto using quiet_trans.
Qed.

(** *** Round 0 of the group reconciler *)

Lemma collectGroups_keyed (gs : list Group) k group :
  collectGroups gs !! k = Some group → Group_Id group = k.
Proof.
  unfold collectGroups. rewrite (foldl_insert_lookup Group_Id id), lookup_empty.
  destruct (last _) as [g|] eqn:Hlast; [|done].
  intros [= <-]. apply last_Some_elem_of, list_elem_of_filter in Hlast. tauto.
Qed.

Lemma groupLookup0_sound (f : gframe Server) k p :
  groupLookup 0 f !! k = Some p →
  ∃ kk, keeperGroups f !! kk = Some p ∧
        scimGroup_ExternalId (groupObjs (g_mach f) !!! p) = k.
Proof.
  unfold groupLookup.
  rewrite (foldl_insert_lookup
             (λ kv : string * ptr, scimGroup_ExternalId (groupObjs (g_mach f) !!! kv.2)) snd),
    lookup_empty.
  destruct (last _) as [[kk p']|] eqn:Hlast; [|done].
  intros [= <-]. apply last_Some_elem_of, list_elem_of_filter in Hlast as [Hk Hin].
  apply elem_of_ranged in Hin. eauto.
Qed.

Lemma groupLookup0_finds (f : gframe Server) k kT pT :
  keeperGroups f !! kT = Some pT →
  scimGroup_ExternalId (groupObjs (g_mach f) !!! pT) = k →
  (∀ kk p, keeperGroups f !! kk = Some p →
           scimGroup_ExternalId (groupObjs (g_mach f) !!! p) = k → p = pT) →
  groupLookup 0 f !! k = Some pT.
Proof.
  intros HT Hext Huniq.
  destruct (groupLookup 0 f !! k) as [p|] eqn:Hlk.
  - apply groupLookup0_sound in Hlk as (kk & Hkk & Hp). f_equal. eauto.
  - exfalso. revert Hlk. unfold groupLookup.
    rewrite (foldl_insert_lookup
               (λ kv : string * ptr, scimGroup_ExternalId (groupObjs (g_mach f) !!! kv.2)) snd),
      lookup_empty.
    destruct (last _) as [kv|] eqn:Hlast; [done|]. intros _.
    apply last_None in Hlast.
    assert ((kT, pT) ∈ filter
              (λ kv : string * ptr,
                 scimGroup_ExternalId (groupObjs (g_mach f) !!! kv.2) = k)
              (ranged 107 0 (keeperGroups f))) as Hin.
    { apply list_elem_of_filter. split; [done|]. by apply elem_of_ranged. }
    rewrite Hlast in Hin. by apply not_elem_of_nil in Hin.
Qed.

(** A turn of the matching loop that does not look [pT] up leaves the object
    at [pT] alone; entries deleted from the working maps stay deleted; the
    requests sent so far stay sent. *)
Lemma matchGroup_other lookup (f : gframe Server) group pT :
  lookup !! Group_Id group ≠ Some pT →
  groupObjs (g_mach (matchGroup 0 lookup f group)) !! pT = groupObjs (g_mach f) !! pT.
Proof.
  intros Hne. unfold matchGroup. destruct (lookup !! _) as [p|]; simpl; [|done].
  assert (p ≠ pT) as Hp by congruence.
  unfold patchGroup. case_bool_decide; [|done]. unfold s_patchResource; simpl.
  destruct (patchResource _ _ _ _) as [[er|] srv]; simpl; [done|].
  by apply list_lookup_insert_ne.
Qed.

Lemma matchGroup_shrinks matchRound lookup (f : gframe Server) group :
  (∀ k, externalGroups f !! k = None →
        externalGroups (matchGroup matchRound lookup f group) !! k = None) ∧
  (∀ k, keeperGroups f !! k = None →
        keeperGroups (matchGroup matchRound lookup f group) !! k = None).
Proof.
  unfold matchGroup. destruct (lookup !! _) as [p|]; simpl; [|done].
  assert (externalGroups (patchGroup p group f) = externalGroups f ∧
          keeperGroups (patchGroup p group f) = keeperGroups f) as [-> ->].
  { unfold patchGroup. case_bool_decide; [|done].
    by destruct (s_patchResource _ _ _ _).1. }
  split; intros k Hk; rewrite lookup_delete; by case_decide.
Qed.

Lemma matchGroups_others lookup pT (l : list (string * Group)) (f : gframe Server) :
  Forall (λ kv, lookup !! Group_Id kv.2 ≠ Some pT) l →
  groupObjs (g_mach (foldl (λ f kv, matchGroup 0 lookup f kv.2) f l)) !! pT
  = groupObjs (g_mach f) !! pT.
Proof.
  intros Hl. revert f. induction Hl as [|kv l Hkv _ IH]; intros f; simpl; [done|].
  rewrite IH. by apply matchGroup_other.
Qed.

Lemma matchGroups_shrink matchRound lookup (l : list (string * Group)) (f : gframe Server) :
  let f' := foldl (λ f kv, matchGroup matchRound lookup f kv.2) f l in
  (∀ k, externalGroups f !! k = None → externalGroups f' !! k = None) ∧
  (∀ k, keeperGroups f !! k = None → keeperGroups f' !! k = None).
Proof.
  revert f. induction l as [|kv l IH]; intros f; simpl; [done|].
  destruct (matchGroup_shrinks matchRound lookup f kv.2) as [He Hk].
  destruct (IH (matchGroup matchRound lookup f kv.2)) as [He' Hk'].
  split; eauto.
Qed.

Lemma matchGroups_calls matchRound lookup (l : list (string * Group)) (f : gframe Server) :
  ∃ new, calls (g_mach (foldl (λ f kv, matchGroup matchRound lookup f kv.2) f l))
         = calls (g_mach f) ++ new.
Proof.
  revert f. induction l as [|kv l IH]; intros f; simpl.
  - exists []. by rewrite (right_id_L [] (++)).
  - destruct (IH (matchGroup matchRound lookup f kv.2)) as (n2 & ->).
    destruct (matchGroup_quiet matchRound lookup f kv.2) as [_ (n1 & -> & _)].
    exists (n1 ++ n2). by rewrite (assoc_L (++)).
Qed.

Lemma matchRoundStep_shrinks (f : gframe Server) (matchRound : nat) :
  (∀ k, externalGroups f !! k = None →
        externalGroups (matchRoundStep f matchRound) !! k = None) ∧
  (∀ k, keeperGroups f !! k = None →
        keeperGroups (matchRoundStep f matchRound) !! k = None).
Proof.
  unfold matchRoundStep. case_bool_decide; [done|]. apply matchGroups_shrink.
Qed.

Lemma matchRounds_shrink (f : gframe Server) :
  (∀ k, externalGroups f !! k = None → externalGroups (matchRounds f) !! k = None) ∧
  (∀ k, keeperGroups f !! k = None → keeperGroups (matchRounds f) !! k = None) ∧
  (∀ k group, externalGroups (matchRounds f) !! k = Some group →
              externalGroups f !! k = Some group).
Proof.
  pose proof matchRoundStep_shrinks as Hround.
  assert (∀ k, externalGroups f !! k = None → externalGroups (matchRounds f) !! k = None)
    as Hext.
  { unfold matchRounds; simpl. intros k Hk. by do 3 apply Hround. }
  split; [done|]. split.
  - unfold matchRounds; simpl. intros k Hk. by do 3 apply Hround.
  - intros k group Hk. destruct (externalGroups f !! k) as [g|] eqn:Hf.
    + f_equal. revert Hk. unfold matchRounds; simpl.
      assert (∀ f r k g g', externalGroups f !! k = Some g →
                externalGroups (matchRoundStep f r) !! k = Some g' → g = g') as Hsame.
      { clear. intros f r k g g'. unfold matchRoundStep.
        case_bool_decide as Hsz; [congruence|]. clear Hsz.
        generalize (groupLookup r f). intros lookup.
        generalize (ranged 134 r (externalGroups f)). intros l. revert f.
        induction l as [|kv l IH]; intros f Hg; simpl; [congruence|].
        destruct (externalGroups (matchGroup r lookup f kv.2) !! k) as [g1|] eqn:Hstep.
        - assert (g1 = g) as ->; [|by apply IH].
          revert Hstep. unfold matchGroup. destruct (lookup !! _) as [p|]; simpl;
            [|congruence].
          rewrite lookup_delete_Some. intros [_ Hk]. revert Hk.
          unfold patchGroup. case_bool_decide; [|congruence].
          destruct (s_patchResource _ _ _ _).1; simpl; congruence.
        - intros Hk.
          destruct (matchGroups_shrink r lookup l (matchGroup r lookup f kv.2)) as [Hs _].
          rewrite (Hs k Hstep) in Hk. done. }
      intros Hk.
      destruct (externalGroups (matchRoundStep f 0) !! k) as [g0|] eqn:H0;
        [|by rewrite (proj1 (Hround _ 2%nat) k (proj1 (Hround _ 1%nat) k H0)) in Hk].
      pose proof (Hsame _ _ _ _ _ Hf H0) as ->.
      destruct (externalGroups (matchRoundStep (matchRoundStep f 0) 1) !! k) as [g1|] eqn:H1;
        [|by rewrite (proj1 (Hround _ 2%nat) k H1) in Hk].
      pose proof (Hsame _ _ _ _ _ H0 H1) as ->.
      by apply (Hsame _ _ _ _ _ H1 Hk).
    + by rewrite (Hext k Hf) in Hk.
Qed.

Lemma createGroups_keeper (f : gframe Server) :
  keeperGroups (createGroups f) = keeperGroups f ∧
  destructive (g_mach (createGroups f)) = destructive (g_mach f).
Proof.
  unfold createGroups. generalize (ranged 175 0 (externalGroups f)).*2. intros l.
  revert f. induction l as [|group l IH]; intros f; simpl; [done|].
  destruct (IH (createGroup f group)) as [-> ->].
  unfold createGroup, s_postResource; simpl.
  destruct (postResource _ _ _) as [[added|er] srv]; simpl; [|done].
  by destruct (parseScimGroup added).
Qed.

Lemma deleteGroups_calls (f : gframe Server) :
  ∃ new, calls (g_mach (deleteGroups f)) = calls (g_mach f) ++ new ∧
         ∀ c, c ∈ new → ∃ k, c = CDelete "Groups" k ∧ is_Some (keeperGroups f !! k).
Proof.
  destruct (deleteGroups_policy_effects f) as (es & HF & Hlog).
  exists (e_calls (effects es)). split.
  - apply (f_equal e_calls) in Hlog. by simpl in Hlog.
  - intros c Hc. revert HF Hc.
    assert (∀ kv, kv ∈ ranged 194 0 (keeperGroups f) → is_Some (keeperGroups f !! kv.1)) as Hin.
    { intros [k' p] Hkp. apply elem_of_ranged in Hkp. by eexists. }
    clear Hlog. revert Hin. generalize (ranged 194 0 (keeperGroups f)). intros l Hin HF.
    induction HF as [|kv e l es Hkv _ IH]; simpl; [by intros ?%not_elem_of_nil|].
    rewrite elem_of_app. intros [Hc|Hc].
    + assert (e_calls e = [CDelete "Groups" kv.1] ∨ e_calls e = []) as [He|He].
      { revert Hkv. unfold deleteGroup_spec. destruct (groupDeletionPolicy _ _); tauto. }
      * rewrite He in Hc. apply list_elem_of_singleton in Hc. subst c.
        exists kv.1. split; [done|]. apply Hin. apply list_elem_of_here.
      * rewrite He in Hc. by apply not_elem_of_nil in Hc.
    + apply IH; [|done]. intros kv' Hkv'. apply Hin. by apply list_elem_of_further.
Qed.

(** C2.  Let [T] be a target group whose [ExternalId] is the identifier of
    the source group [G], the only target group with that [ExternalId] (the
    data model assumes it unique).  Whatever the two names are, the lookup
    of round 0 sends [G] to [T], and after round 0 neither is left in the
    working maps: in what the phase sends after the rounds there is no POST
    for [G] and no DELETE for [T].  When the names are equal the pair costs no request.  When
    only the names differ, the turn of the loop that visits [G] sends the
    patch that carries [displayName] alone; the object of [T] then holds the
    identifier and the name of [G] if the request succeeded, and is unchanged
    if it failed. *)
Theorem round0_matches_by_externalId (src : Source) (m : machine Server)
    (groups : gmap string ptr) (pT : ptr) (T : scimGroup) (G : Group) :
  scimGroups m = Some groups →
  groups !! scimGroup_Id T = Some pT →
  groupObjs m !! pT = Some T →
  scimGroup_ExternalId T = Group_Id G →
  collectGroups (Groups src) !! Group_Id G = Some G →
  (∀ k p, groups !! k = Some p →
          scimGroup_ExternalId (groupObjs m !!! p) = Group_Id G → p = pT) →
  let f0 := GFrame m (copyMap 87 groups) (collectGroups (Groups src)) [] [] in
  let lookup := groupLookup 0 f0 in
  let f1 := matchRoundStep f0 0 in
  lookup !! Group_Id G = Some pT ∧
  externalGroups f1 !! Group_Id G = None ∧
  keeperGroups f1 !! scimGroup_Id T = None ∧
  (∃ new, calls (syncGroups src m).2 = calls (g_mach (matchRounds f0)) ++ new ∧
          (CPost "Groups" (groupPayload G) ∉ new) ∧
          (CDelete "Groups" (scimGroup_Id T) ∉ new)) ∧
  ∃ before after,
    ranged 134 0 (externalGroups f0) = before ++ (Group_Id G, G) :: after ∧
    let fa := foldl (λ f kv, matchGroup 0 lookup f kv.2) f0 before in
    if decide (scimGroup_Name T = Group_Name G) then
      g_log (matchGroup 0 lookup fa G) = g_log fa ∧
      groupObjs (g_mach f1) !! pT = Some T
    else
      (∃ later, calls (g_mach f1) = calls (g_mach fa) ++ renamePatch T G :: later) ∧
      groupObjs (g_mach f1) !! pT =
        Some (match (patchResource "Groups" (scimGroup_Id T)
                       (replacePayload [("displayName", AString (Group_Name G))])
                       (server (g_mach fa))).1 with
              | None => renamedGroup T G
              | Some _ => T
              end).
Proof.
  intros Hm HT Hobj Hext HG Huniq f0 lookup f1.
  assert (groupObjs m !!! pT = T) as HTt by (by apply list_lookup_total_correct).
  assert (lookup !! Group_Id G = Some pT) as Hlk.
  { apply (groupLookup0_finds f0 _ (scimGroup_Id T)); simpl.
    - by rewrite copyMap_eq.
    - by rewrite HTt.
    - intros kk p. rewrite copyMap_eq. apply Huniq. }
  split; [done|].
  (* the round runs *)
  assert (f1 = foldl (λ f kv, matchGroup 0 lookup f kv.2) f0
                     (ranged 134 0 (externalGroups f0))) as Hf1.
  { unfold f1, matchRoundStep. rewrite bool_decide_eq_false_2; [done|].
    simpl. rewrite copyMap_eq. intros [Hz|Hz]; apply map_size_empty_iff in Hz.
    - by rewrite Hz, lookup_empty in HT.
    - by rewrite Hz, lookup_empty in HG. }
  (* the visit of G *)
  assert ((Group_Id G, G) ∈ ranged 134 0 (externalGroups f0)) as Hin
    by (by apply elem_of_ranged).
  apply list_elem_of_split in Hin as (before & after & Hsplit).
  pose proof (NoDup_ranged_keys 134 0 (externalGroups f0)) as Hnd.
  rewrite Hsplit, fmap_app, fmap_cons in Hnd. simpl in Hnd.
  apply NoDup_app in Hnd as (_ & Hba & Hnd). apply NoDup_cons in Hnd as [Haf _].
  assert (∀ l, l ⊆ ranged 134 0 (externalGroups f0) → Group_Id G ∉ l.*1 →
               Forall (λ kv, lookup !! Group_Id kv.2 ≠ Some pT) l) as Hothers.
  { intros l Hsub Hnot. apply Forall_forall. intros [k g] Hkg Hlkg. simpl in Hlkg.
    assert (Group_Id g = k) as Hk.
    { apply (collectGroups_keyed (Groups src)). apply (elem_of_ranged 134 0). by apply Hsub. }
    apply groupLookup0_sound in Hlkg as (kk & _ & Hp). simpl in Hp.
    rewrite HTt, Hext in Hp. apply Hnot. apply list_elem_of_fmap.
    exists (k, g). split; [simpl; congruence|done]. }
  assert (Forall (λ kv, lookup !! Group_Id kv.2 ≠ Some pT) before) as Hbefore.
  { apply Hothers; [rewrite Hsplit; set_solver|]. intros Hb. by apply (Hba (Group_Id G)), list_elem_of_here. }
  assert (Forall (λ kv, lookup !! Group_Id kv.2 ≠ Some pT) after) as Hafter.
  { apply Hothers; [rewrite Hsplit; set_solver|done]. }
  set (fa := foldl (λ f kv, matchGroup 0 lookup f kv.2) f0 before).
  set (fb := matchGroup 0 lookup fa G).
  assert (f1 = foldl (λ f kv, matchGroup 0 lookup f kv.2) fb after) as Hf1'.
  { rewrite Hf1, Hsplit, foldl_app. done. }
  assert (groupObjs (g_mach fa) !! pT = Some T) as Hfa.
  { unfold fa. by rewrite matchGroups_others. }
  assert (groupObjs (g_mach fa) !!! pT = T) as Hfat by (by apply list_lookup_total_correct).
  assert (groupObjs (g_mach f1) !! pT = groupObjs (g_mach fb) !! pT) as Hkeep.
  { rewrite Hf1'. by apply matchGroups_others. }
  assert (pT < length (groupObjs (g_mach fa)))%nat as Hlen
    by (apply lookup_lt_is_Some; eauto).
  (* what the visit does *)
  assert (externalGroups fb !! Group_Id G = None ∧
          keeperGroups fb !! scimGroup_Id T = None) as [Hge Hgk].
  { unfold fb, matchGroup. rewrite Hlk. simpl. split.
    - apply lookup_delete_eq.
    - assert (scimGroup_Id (groupObjs (g_mach (patchGroup pT G fa)) !!! pT) = scimGroup_Id T)
        as ->; [|apply lookup_delete_eq].
      unfold patchGroup. rewrite Hfat. case_bool_decide; [|by rewrite Hfat].
      unfold s_patchResource; simpl.
      destruct (patchResource _ _ _ _) as [[er|] srv]; simpl; [by rewrite Hfat|].
      by rewrite list_lookup_total_insert_eq. }
  destruct (matchGroups_shrink 0 lookup after fb) as [Hse Hsk].
  assert (externalGroups f1 !! Group_Id G = None) as Hg1 by (rewrite Hf1'; by apply Hse).
  assert (keeperGroups f1 !! scimGroup_Id T = None) as Hk1 by (rewrite Hf1'; by apply Hsk).
  split; [done|]. split; [done|]. split.
  { (* the rest of the phase *)
    assert (matchRounds f0 = matchRoundStep (matchRoundStep f1 1) 2) as Hrounds by done.
    assert (externalGroups (matchRounds f0) !! Group_Id G = None) as Hg3.
    { rewrite Hrounds. by do 2 apply matchRoundStep_shrinks. }
    assert (keeperGroups (matchRounds f0) !! scimGroup_Id T = None) as Hk3.
    { rewrite Hrounds. by do 2 apply matchRoundStep_shrinks. }
    destruct (deleteGroups_calls (createGroups (matchRounds f0))) as (dels & Hdels & Hdel).
    exists (((λ group, CPost "Groups" (groupPayload group))
               <$> (ranged 175 0 (externalGroups (matchRounds f0))).*2) ++ dels).
    split.
    { unfold syncGroups. rewrite Hm. simpl. fold f0.
      by rewrite Hdels, createGroups_calls, (assoc_L (++)). }
    split; intros Hin; apply elem_of_app in Hin as [Hin|Hin].
    - apply list_elem_of_fmap in Hin as (g' & Hc & Hg').
      apply list_elem_of_fmap in Hg' as ([k' g''] & -> & Hk'). simpl in Hc.
      apply elem_of_ranged in Hk'.
      assert (Group_Id g'' = k') as Hkey.
      { apply (collectGroups_keyed (Groups src)).
        by apply (matchRounds_shrink f0). }
      injection Hc as Hn Hi. rewrite Hi, Hkey, Hk' in Hg3. done.
    - apply Hdel in Hin as (k & Hc & _). done.
    - apply list_elem_of_fmap in Hin as (g' & Hc & _). done.
    - apply Hdel in Hin as (k & Hc & [p Hp]). injection Hc as <-.
      rewrite (proj1 (createGroups_keeper _)) in Hp. by rewrite Hk3 in Hp. }
  exists before, after. split; [done|]. fold fa.
  assert (groupDiff T G = if decide (scimGroup_Name T = Group_Name G) then []
                          else [("displayName", AString (Group_Name G))]) as Hdiff.
  { unfold groupDiff. rewrite (bool_decide_eq_false_2 (_ ≠ Group_Id G)) by tauto.
    destruct (decide (scimGroup_Name T = Group_Name G)) as [Hn|Hn].
    - by rewrite bool_decide_eq_false_2 by tauto.
    - by rewrite bool_decide_eq_true_2. }
  destruct (decide (scimGroup_Name T = Group_Name G)) as [Hname|Hname].
  - assert (patchGroup pT G fa = fa) as Hpatch.
    { unfold patchGroup. rewrite Hfat, Hdiff. by rewrite bool_decide_eq_false_2 by (simpl; lia). }
    split.
    + unfold matchGroup. rewrite Hlk. simpl. by rewrite Hpatch.
    + rewrite Hkeep. unfold fb, matchGroup. rewrite Hlk. simpl. by rewrite Hpatch.
  - fold fb. split.
    + destruct (matchGroups_calls 0 lookup after fb) as (later & Hlater).
      assert (calls (g_mach fb) = calls (g_mach fa) ++ [renamePatch T G]) as Hcb.
      { unfold fb, matchGroup. rewrite Hlk. simpl. unfold patchGroup.
        rewrite Hfat, Hdiff. rewrite bool_decide_eq_true_2 by (simpl; lia).
        unfold s_patchResource; simpl.
        by destruct (patchResource _ _ _ _) as [[er|] srv]. }
      exists later. by rewrite Hf1', Hlater, Hcb, <-(assoc_L (++)).
    + rewrite Hkeep. unfold fb, matchGroup. rewrite Hlk. simpl. unfold patchGroup.
      rewrite Hfat, Hdiff. rewrite bool_decide_eq_true_2 by (simpl; lia).
      unfold s_patchResource; simpl.
      destruct (patchResource _ _ _ _) as [[er|] srv]; simpl; [done|].
      by rewrite list_lookup_insert_eq.
Qed.

(** *** Source users that share a case-folded email *)

Lemma collectUsers_keyed (us : list User) k user :
  collectUsers us !! k = Some user → User_Id user = k.
Proof.
  unfold collectUsers. rewrite (foldl_insert_lookup User_Id id), lookup_empty.
  destruct (last _) as [u|] eqn:Hlast; [|done].
  intros [= <-]. apply last_Some_elem_of, list_elem_of_filter in Hlast. tauto.
Qed.

Lemma userLookup_sound line objs (users : gmap string ptr) k p :
  userLookup line objs users !! k = Some p →
  ∃ kk, users !! kk = Some p ∧ fold_String (scimUser_Email (objs !!! p)) = k.
Proof.
  unfold userLookup.
  rewrite (foldl_insert_lookup
             (λ kv : string * ptr, fold_String (scimUser_Email (objs !!! kv.2))) snd),
    lookup_empty.
  destruct (last _) as [[kk p']|] eqn:Hlast; [|done].
  intros [= <-]. apply last_Some_elem_of, list_elem_of_filter in Hlast as [Hk Hin].
  apply elem_of_ranged in Hin. eauto.
Qed.

Lemma userLookup_finds line objs (users : gmap string ptr) k kT pT :
  users !! kT = Some pT →
  fold_String (scimUser_Email (objs !!! pT)) = k →
  (∀ kk p, users !! kk = Some p →
           fold_String (scimUser_Email (objs !!! p)) = k → p = pT) →
  userLookup line objs users !! k = Some pT.
Proof.
  intros HT Hext Huniq.
  destruct (userLookup line objs users !! k) as [p|] eqn:Hlk.
  - apply userLookup_sound in Hlk as (kk & Hkk & Hp). f_equal. eauto.
  - exfalso. revert Hlk. unfold userLookup.
    rewrite (foldl_insert_lookup
               (λ kv : string * ptr, fold_String (scimUser_Email (objs !!! kv.2))) snd),
      lookup_empty.
    destruct (last _) as [kv|] eqn:Hlast; [done|]. intros _.
    apply last_None in Hlast.
    assert ((kT, pT) ∈ filter
              (λ kv : string * ptr, fold_String (scimUser_Email (objs !!! kv.2)) = k)
              (ranged line 0 users)) as Hin.
    { apply list_elem_of_filter. split; [done|]. by apply elem_of_ranged. }
    rewrite Hlast in Hin. by apply not_elem_of_nil in Hin.
Qed.

Lemma userDiff_nil (r : scimUser) (user : User) :
  userDiff r user = [] → updatedUser r user = r.
Proof.
  unfold userDiff, updatedUser. intros Hd.
  repeat case_bool_decide; try done.
  repeat match goal with Hx : ¬ _ ≠ _ |- _ => apply dec_stable in Hx end.
  destruct r; simpl in *. by subst.
Qed.

Lemma userDiff_length (r : scimUser) (user : User) :
  (0 < length (userDiff r user))%nat ↔ userDiff r user ≠ [].
Proof. destruct (userDiff r user); simpl; split; (done || lia || congruence). Qed.

(** What a turn of the matching loop does when the lookup sends the source
    user to [p]. *)
Lemma matchUser_found lookup (f : uframe Server) (user : User) p r :
  lookup !! fold_String (User_Email user) = Some p →
  userObjs (u_mach f) !! p = Some r →
  let f' := matchUser lookup f user in
  calls (u_mach f') = calls (u_mach f) ++ userPatch r user ∧
  externalUsers f' = delete (User_Id user) (externalUsers f) ∧
  keeperUsers f' = delete (scimUser_Id r) (keeperUsers f) ∧
  userObjs (u_mach f') =
    <[p := if decide (userDiff r user = []) then r
           else match (patchResource "Users" (scimUser_Id r)
                         (replacePayload (userDiff r user)) (server (u_mach f))).1 with
                | None => updatedUser r user
                | Some _ => r
                end]> (userObjs (u_mach f)).
Proof.
  intros Hlk Hr. assert (userObjs (u_mach f) !!! p = r) as Hrt
    by (by apply list_lookup_total_correct).
  assert (p < length (userObjs (u_mach f)))%nat as Hlen by (apply lookup_lt_is_Some; eauto).
  unfold matchUser, userPatch. rewrite Hlk. simpl. unfold patchUser. rewrite Hrt.
  destruct (decide (userDiff r user = [])) as [Hd|Hd].
  - rewrite bool_decide_eq_false_2 by (by rewrite userDiff_length; intros []).
    rewrite Hrt, (right_id_L [] (++)). by rewrite list_insert_id.
  - rewrite bool_decide_eq_true_2 by (by rewrite userDiff_length).
    unfold s_patchResource; simpl.
    destruct (patchResource _ _ _ _) as [[er|] srv]; simpl.
    + rewrite Hrt. by rewrite list_insert_id.
    + by rewrite list_lookup_total_insert_eq.
Qed.

Lemma matchUser_other lookup (f : uframe Server) (user : User) pT :
  lookup !! fold_String (User_Email user) ≠ Some pT →
  userObjs (u_mach (matchUser lookup f user)) !! pT = userObjs (u_mach f) !! pT.
Proof.
  intros Hne. unfold matchUser. destruct (lookup !! _) as [p|]; simpl; [|done].
  assert (p ≠ pT) as Hp by congruence.
  unfold patchUser. case_bool_decide; [|done]. unfold s_patchResource; simpl.
  destruct (patchResource _ _ _ _) as [[er|] srv]; simpl; [done|].
  by apply list_lookup_insert_ne.
Qed.

Lemma matchUser_shrinks lookup (f : uframe Server) (user : User) :
  (∀ k, externalUsers f !! k = None → externalUsers (matchUser lookup f user) !! k = None) ∧
  (∀ k, keeperUsers f !! k = None → keeperUsers (matchUser lookup f user) !! k = None).
Proof.
  unfold matchUser. destruct (lookup !! _) as [p|]; simpl; [|done].
  assert (externalUsers (patchUser p user f) = externalUsers f ∧
          keeperUsers (patchUser p user f) = keeperUsers f) as [-> ->].
  { unfold patchUser. case_bool_decide; [|done].
    by destruct (s_patchResource _ _ _ _).1. }
  split; intros k Hk; rewrite lookup_delete; by case_decide.
Qed.

Lemma sameIdentity_updated (T r : scimUser) (user : User) :
  sameIdentity T r → sameIdentity T (updatedUser r user) ∧
                     updatedUser r user = updatedUser T user.
Proof. intros (HI & HE & HG). unfold sameIdentity, updatedUser; simpl. by rewrite HI, HE, HG. Qed.

Lemma matchUser_identity lookup (f : uframe Server) (user : User) pT T :
  (∃ r, userObjs (u_mach f) !! pT = Some r ∧ sameIdentity T r) →
  ∃ r, userObjs (u_mach (matchUser lookup f user)) !! pT = Some r ∧ sameIdentity T r.
Proof.
  intros (r & Hr & Hid).
  destruct (decide (lookup !! fold_String (User_Email user) = Some pT)) as [Hlk|Hlk].
  - destruct (matchUser_found lookup f user pT r Hlk Hr) as (_ & _ & _ & ->).
    assert (pT < length (userObjs (u_mach f)))%nat as Hlen
      by (apply lookup_lt_is_Some; eauto).
    rewrite list_lookup_insert_eq by done.
    destruct (decide _); [eauto|].
    destruct (patchResource _ _ _ _).1; [eauto|].
    eexists. split; [done|]. by apply sameIdentity_updated.
  - rewrite matchUser_other by done. eauto.
Qed.

Lemma matchUsers_identity lookup (l : list (string * User)) (f : uframe Server) pT T :
  (∃ r, userObjs (u_mach f) !! pT = Some r ∧ sameIdentity T r) →
  ∃ r, userObjs (u_mach (foldl (λ f kv, matchUser lookup f kv.2) f l)) !! pT = Some r ∧
       sameIdentity T r.
Proof.
  revert f. induction l as [|kv l IH]; intros f Hf; simpl; [done|].
  by apply IH, matchUser_identity.
Qed.

Lemma matchUsers_others lookup pT (l : list (string * User)) (f : uframe Server) :
  Forall (λ kv, lookup !! fold_String (User_Email kv.2) ≠ Some pT) l →
  userObjs (u_mach (foldl (λ f kv, matchUser lookup f kv.2) f l)) !! pT
  = userObjs (u_mach f) !! pT.
Proof.
  intros Hl. revert f. induction Hl as [|kv l Hkv _ IH]; intros f; simpl; [done|].
  rewrite IH. by apply matchUser_other.
Qed.

Lemma matchUsers_shrink lookup (l : list (string * User)) (f : uframe Server) :
  let f' := foldl (λ f kv, matchUser lookup f kv.2) f l in
  (∀ k, externalUsers f !! k = None → externalUsers f' !! k = None) ∧
  (∀ k, keeperUsers f !! k = None → keeperUsers f' !! k = None).
Proof.
  revert f. induction l as [|kv l IH]; intros f; simpl; [done|].
  destruct (matchUser_shrinks lookup f kv.2) as [He Hk].
  destruct (IH (matchUser lookup f kv.2)) as [He' Hk'].
  split; eauto.
Qed.

Lemma matchUsers_keep lookup (l : list (string * User)) (f : uframe Server) k user :
  externalUsers (foldl (λ f kv, matchUser lookup f kv.2) f l) !! k = Some user →
  externalUsers f !! k = Some user.
Proof.
  revert f. induction l as [|kv l IH]; intros f; simpl; [done|].
  intros Hk. apply IH in Hk. revert Hk. unfold matchUser.
  destruct (lookup !! _) as [p|]; simpl; [|done].
  rewrite lookup_delete_Some. intros [_ Hk]. revert Hk.
  unfold patchUser. case_bool_decide; [|done].
  by destruct (s_patchResource _ _ _ _).1.
Qed.

Lemma createUsers_calls (f : uframe Server) :
  calls (u_mach (createUsers f)) =
    calls (u_mach f) ++
      ((ranged 286 0 (externalUsers f)).*2 ≫=
         λ user, if User_Active user then [CPost "Users" (userPayload user)] else []).
Proof.
  unfold createUsers.
  destruct (foldl_effects u_log (λ _, True) createUser_spec createUser)
    with (l := (ranged 286 0 (externalUsers f)).*2) (f := f)
    as [_ (es & HF & Hlog)]; [|done|].
  - intros f' user _. split; [done|]. apply createUser_effect.
  - apply (f_equal e_calls) in Hlog. simpl in Hlog. rewrite Hlog. f_equal.
    apply (effects_calls createUser_spec); [|done].
    intros user e. unfold createUser_spec. destruct (User_Active user); [tauto|].
    by intros ->.
Qed.

(** C10 (as amended).  Let [T] be the target user that the lookup, built
    once from [s.scimUsers], holds for the case-folded email of the source
    user [u1], and [u2] a source user with another identifier whose email
    folds to the same string.  The lookup sends both to [T]; after the
    matching loop neither is left in [externalUsers], no POST of the
    creation loop is for either, and [T] is not left in [keeperUsers].  Every source user [u] with that folded email finds, at
    its turn, the object of [T] as the turns before left it, and sends its
    patch, if any, against the identifier of [T].  If no later turn belongs
    to such a user, the object ends with the attributes of [u] when the
    request of [u] succeeded or none was needed, and as [u] found it when
    the request failed. *)
Theorem shared_email_users_share_target (src : Source) (m : machine Server)
    (users : gmap string ptr) (pT : ptr) (T : scimUser) (u1 u2 : User) :
  scimUsers m = Some users →
  userLookup 237 (userObjs m) users !! fold_String (User_Email u1) = Some pT →
  userObjs m !! pT = Some T →
  collectUsers (Users src) !! User_Id u1 = Some u1 →
  collectUsers (Users src) !! User_Id u2 = Some u2 →
  User_Id u1 ≠ User_Id u2 →
  fold_String (User_Email u2) = fold_String (User_Email u1) →
  let f0 := UFrame m (copyMap 222 users) (collectUsers (Users src)) [] [] in
  let lookup := userLookup 237 (userObjs m) users in
  let f1 := matchUsers f0 in
  (fold_String (scimUser_Email T) = fold_String (User_Email u1) ∧
   lookup !! fold_String (User_Email u2) = Some pT) ∧
  (externalUsers f1 !! User_Id u1 = None ∧ externalUsers f1 !! User_Id u2 = None) ∧
  keeperUsers f1 !! scimUser_Id T = None ∧
  (∃ new, calls (u_mach (createUsers f1)) = calls (u_mach f1) ++ new ∧
          (CPost "Users" (userPayload u1) ∉ new) ∧
          (CPost "Users" (userPayload u2) ∉ new)) ∧
  ∀ before u after,
    ranged 241 0 (externalUsers f0) = before ++ (User_Id u, u) :: after →
    fold_String (User_Email u) = fold_String (User_Email u1) →
    let fa := foldl (λ f kv, matchUser lookup f kv.2) f0 before in
    ∃ r, userObjs (u_mach fa) !! pT = Some r ∧ sameIdentity T r ∧
         calls (u_mach (matchUser lookup fa u)) =
           calls (u_mach fa) ++
             (if decide (userDiff r u = []) then []
              else [CPatch "Users" (scimUser_Id T) (replacePayload (userDiff r u))]) ∧
         (Forall (λ kv, fold_String (User_Email kv.2) ≠ fold_String (User_Email u1)) after →
          userObjs (u_mach f1) !! pT =
            Some (if decide (userDiff r u = []) then updatedUser T u
                  else match (patchResource "Users" (scimUser_Id T)
                                (replacePayload (userDiff r u)) (server (u_mach fa))).1 with
                       | None => updatedUser T u
                       | Some _ => r
                       end)).
Proof.
  intros Hm Hlk Hobj Hu1 Hu2 _ He2 f0 lookup f1.
  assert (userObjs m !!! pT = T) as HTt by (by apply list_lookup_total_correct).
  assert (∀ k, lookup !! k = Some pT → k = fold_String (scimUser_Email T)) as Hback.
  { intros k Hk. apply userLookup_sound in Hk as (_ & _ & <-). by rewrite HTt. }
  assert (fold_String (scimUser_Email T) = fold_String (User_Email u1)) as HeT
    by (symmetry; by apply Hback).
  destruct (userLookup_sound _ _ _ _ _ Hlk) as (kT & HT & _).
  split; [by rewrite He2|].
  assert (f1 = foldl (λ f kv, matchUser lookup f kv.2) f0
                     (ranged 241 0 (externalUsers f0))) as Hf1.
  { unfold f1, matchUsers. simpl. rewrite Hm. simpl. rewrite copyMap_eq.
    rewrite bool_decide_eq_true_2; [done|].
    split; apply Nat.neq_0_lt_0; intros Hz; apply map_size_empty_iff in Hz.
    - by rewrite Hz, lookup_empty in HT.
    - by rewrite Hz, lookup_empty in Hu1. }
  assert (∃ r, userObjs (u_mach f0) !! pT = Some r ∧ sameIdentity T r) as Hinv0
    by (exists T; by repeat split).
  (* the turn of a user with the folded email of T *)
  assert (∀ before u after,
            ranged 241 0 (externalUsers f0) = before ++ (User_Id u, u) :: after →
            fold_String (User_Email u) = fold_String (User_Email u1) →
            let fa := foldl (λ f kv, matchUser lookup f kv.2) f0 before in
            ∃ r, userObjs (u_mach fa) !! pT = Some r ∧ sameIdentity T r ∧
                 f1 = foldl (λ f kv, matchUser lookup f kv.2) (matchUser lookup fa u) after ∧
                 lookup !! fold_String (User_Email u) = Some pT) as Hturn.
  { intros before u after Hsplit Hu fa.
    destruct (matchUsers_identity lookup before f0 pT T Hinv0) as (r & Hr & Hid).
    exists r. repeat split; try done; try apply Hid.
    - by rewrite Hf1, Hsplit, foldl_app.
    - by rewrite Hu. }
  assert (∀ u, collectUsers (Users src) !! User_Id u = Some u →
               fold_String (User_Email u) = fold_String (User_Email u1) →
               externalUsers f1 !! User_Id u = None ∧
               keeperUsers f1 !! scimUser_Id T = None) as Hgone.
  { intros u Hu Hue.
    assert ((User_Id u, u) ∈ ranged 241 0 (externalUsers f0)) as Hin
      by (by apply elem_of_ranged).
    apply list_elem_of_split in Hin as (before & after & Hsplit).
    destruct (Hturn before u after Hsplit Hue) as (r & Hr & (HI & _) & -> & Hlku).
    destruct (matchUser_found lookup _ u pT r Hlku Hr) as (_ & Hext & Hkeep & _).
    destruct (matchUsers_shrink lookup after
                (matchUser lookup (foldl (λ f kv, matchUser lookup f kv.2) f0 before) u))
      as [Hse Hsk].
    split; [apply Hse|apply Hsk].
    - rewrite Hext. apply lookup_delete_eq.
    - rewrite Hkeep, HI. apply lookup_delete_eq. }
  split; [split; [apply (Hgone u1)|apply (Hgone u2)]; done|].
  split; [by apply (Hgone u1)|].
  split.
  { eexists. split; [apply createUsers_calls|].
    assert (∀ u, externalUsers f1 !! User_Id u = None →
                 CPost "Users" (userPayload u) ∉
                   (ranged 286 0 (externalUsers f1)).*2 ≫=
                     λ user, if User_Active user
                             then [CPost "Users" (userPayload user)] else []) as Hnot.
    { intros u Hnone Hin. apply list_elem_of_bind in Hin as (u' & Hc & Hu').
      apply list_elem_of_fmap in Hu' as ([k' u''] & -> & Hk'). simpl in Hc.
      apply elem_of_ranged in Hk'.
      assert (User_Id u'' = k') as Hkey.
      { apply (collectUsers_keyed (Users src)).
        rewrite Hf1 in Hk'. by apply matchUsers_keep in Hk'. }
      destruct (User_Active u''); [|by apply not_elem_of_nil in Hc].
      apply list_elem_of_singleton in Hc. injection Hc as Hc.
      assert (User_Id u'' = User_Id u) as Hid by congruence.
      rewrite <-Hid, Hkey, Hk' in Hnone. done. }
    split; apply Hnot; by apply Hgone. }
  intros before u after Hsplit Hue fa. subst fa.
  destruct (Hturn before u after Hsplit Hue) as (r & Hr & Hid & Hf1' & Hlku).
  exists r. split; [done|]. split; [done|].
  destruct (matchUser_found lookup _ u pT r Hlku Hr) as (Hc & _ & _ & Hobjs).
  destruct Hid as (HI & HEm & HG).
  split.
  - rewrite Hc. unfold userPatch. by rewrite HI.
  - intros Hafter. rewrite Hf1'. rewrite matchUsers_others.
    + rewrite Hobjs, list_lookup_insert_eq by (apply lookup_lt_is_Some; eauto).
      f_equal. rewrite HI.
      assert (updatedUser r u = updatedUser T u) as Hup
        by (by apply sameIdentity_updated).
      destruct (decide (userDiff r u = [])) as [Hd|Hd].
      * by rewrite <-Hup, userDiff_nil.
      * by rewrite Hup.
    + eapply Forall_impl; [exact Hafter|]. intros kv Hkv Hlkv.
      apply Hkv. rewrite <-HeT. by apply Hback.
Qed.

(** *** The membership delta *)

Lemma filter_iff_in {A : Type} (P Q : A → Prop) `{!∀ x, Decision (P x)}
    `{!∀ x, Decision (Q x)} (l : list A) :
  (∀ x, x ∈ l → P x ↔ Q x) → filter P l = filter Q l.
Proof.
  induction l as [|a l IH]; intros HPQ; [done|].
  rewrite !filter_cons. rewrite IH by (intros x Hx; apply HPQ; by right).
  destruct (decide (P a)) as [Ha|Ha], (decide (Q a)) as [Hb|Hb]; try done;
    exfalso; apply (HPQ a) in Ha || apply (HPQ a) in Hb; try done; by left.
Qed.

Lemma translateStep_fold groupMap (l : list string) (X : gset string) (acc : list string) :
  let tr := omap (λ externalGroupId, groupMap !! externalGroupId) l in
  (foldl (translateStep groupMap) (X, acc) l).1 = X ∖ list_to_set tr ∧
  (NoDup tr → (foldl (translateStep groupMap) (X, acc) l).2 = acc ++ filter (λ g, g ∉ X) tr).
Proof.
  revert X acc. induction l as [|x l IH]; intros X acc.
  - simpl. split; [set_solver|]. intros _. by rewrite filter_nil, (right_id_L [] (++)).
  - cbn [foldl]. unfold translateStep at 2 4. cbn [fst snd].
    assert (omap (λ externalGroupId, groupMap !! externalGroupId) (x :: l) =
            match groupMap !! x with
            | Some k => k :: omap (λ externalGroupId, groupMap !! externalGroupId) l
            | None => omap (λ externalGroupId, groupMap !! externalGroupId) l
            end) as -> by reflexivity.
    destruct (groupMap !! x) as [k|] eqn:Hx; [|apply IH].
    case_bool_decide as Hk.
    + destruct (IH (X ∖ {[k]}) acc) as [IH1 IH2]. split.
      { rewrite IH1. cbn [list_to_set foldr]. set_solver. }
      intros Hnd. apply NoDup_cons in Hnd as [Hnk Hnd].
      rewrite (IH2 Hnd), filter_cons_False by (intros Hn; by apply Hn).
      f_equal. apply filter_iff_in. intros y Hy.
      rewrite elem_of_difference, elem_of_singleton.
      split; [|tauto]. intros Hn HX. apply Hn. split; [done|]. by intros ->.
    + destruct (IH X (acc ++ [k])) as [IH1 IH2]. split.
      { rewrite IH1. cbn [list_to_set foldr]. set_solver. }
      intros Hnd. apply NoDup_cons in Hnd as [Hnk Hnd].
      rewrite (IH2 Hnd), filter_cons_True by done. by rewrite <-(assoc_L (++)).
Qed.

(** The set left in [keeperUserGroups] is [candidateRemove], always; the
    slice [addGroups] is [toAdd] when no target group is reached twice by
    the source user's list. *)
Lemma membershipDelta_spec groupMap (keeperUser : scimUser) (user : User) :
  (membershipDelta groupMap keeperUser user).1 = candidateRemove groupMap keeperUser user ∧
  (NoDup (translated groupMap user) →
   (membershipDelta groupMap keeperUser user).2 = toAdd groupMap keeperUser user).
Proof.
  unfold membershipDelta, candidateRemove, toAdd, translated.
  destruct (translateStep_fold groupMap (User_Groups user)
              (list_to_set (scimUser_Groups keeperUser)) []) as [H1 H2].
  split; [done|]. intros Hnd. rewrite (H2 Hnd). simpl.
  apply list_filter_iff. intros g. by rewrite elem_of_list_to_set.
Qed.

Lemma filterRemove_fold m (user : User) (l : list string) (R F : list string) :
  (foldl (filterRemove m user) (R, F) l).1 = R ++ filter (λ g, controlled m g = true) l ∧
  (verbose m = false → (foldl (filterRemove m user) (R, F) l).2 = F).
Proof.
  revert R F. induction l as [|g l IH]; intros R F; cbn [foldl].
  - by rewrite filter_nil, (right_id_L [] (++)).
  - rewrite filter_cons.
    assert (filterRemove m user (R, F) g =
              (if controlled m g then (R ++ [g], F)
               else (R, (filterRemove m user (R, F) g).2)) ∧
            (verbose m = false → (filterRemove m user (R, F) g).2 = F)) as [Hstep Hquiet].
    { unfold filterRemove, controlled. cbn [fst snd].
      destruct (default ∅ (scimGroups m) !! g) as [gp|].
      - destruct (len_pos _); [done|]. by destruct (verbose m).
      - by destruct (verbose m). }
    rewrite Hstep. destruct (controlled m g).
    + rewrite decide_True by done. destruct (IH (R ++ [g]) F) as [-> H2].
      by rewrite <-(assoc_L (++)).
    + rewrite decide_False by done.
      destruct (IH R (filterRemove m user (R, F) g).2) as [-> H2].
      split; [done|]. intros Hv. by rewrite H2, Hquiet.
Qed.

Lemma ranged_set_perm (line nth : nat) (X : gset string) :
  ranged_set line nth X ≡ₚ elements X.
Proof.
  unfold ranged_set. rewrite (ranged_perm unit line nth), map_to_list_gset_to_gmap.
  rewrite <-list_fmap_compose. by rewrite list_fmap_id.
Qed.

(** The remove list of lines 360-380: everything that is left when
    [destructive > 0]; otherwise the groups that exist and have a non-empty
    [ExternalId], the others being noted only when [verbose]. *)
Lemma removeList_spec (nth : nat) m (user : User) (X : gset string) :
  (destructive m > 0 →
   (removeList nth m user X).1 ≡ₚ elements X ∧ (removeList nth m user X).2 = []) ∧
  (destructive m <= 0 →
   (removeList nth m user X).1 =
     filter (λ g, controlled m g = true) (ranged_set 364 nth X) ∧
   (verbose m = false → (removeList nth m user X).2 = [])).
Proof.
  unfold removeList. split; intros Hd.
  - rewrite (bool_decide_eq_true_2 (destructive m > 0)) by done.
    case_bool_decide as Hsz; simpl; [by rewrite ranged_set_perm|].
    assert (X = ∅) as -> by (apply leibniz_equiv, size_empty_iff; lia). by rewrite elements_empty.
  - rewrite (bool_decide_eq_false_2 (destructive m > 0)) by lia.
    case_bool_decide as Hsz; simpl.
    + apply (filterRemove_fold m user _ [] []).
    + assert (X = ∅) as -> by (apply leibniz_equiv, size_empty_iff; lia).
      assert (ranged_set 364 nth ∅ = []) as ->; [|done].
      apply Permutation_nil_r. by rewrite ranged_set_perm, elements_empty.
Qed.

(** *** When the membership patch is sent *)

Lemma memberValues_length (groupIds : list string) :
  length (memberValues groupIds) = length groupIds.
Proof. unfold memberValues. apply length_fmap. Qed.

(** The patch is sent when [addGroups] or the filtered [removeGroups] is not
    empty, whatever [destructive] is. *)
Lemma patchMembership_sends (keeperUser : scimUser) (user : User)
    (addGroups removeGroups : list string) (f : mframe Server) :
  calls (m_mach (patchMembership keeperUser user addGroups removeGroups f)) =
    calls (m_mach f) ++
      (if decide (addGroups = [] ∧ removeGroups = []) then []
       else [CPatch "Users" (scimUser_Id keeperUser)
               (membershipPayload
                  (membershipOperations (destructive (m_mach f)) addGroups removeGroups))]).
Proof.
  unfold patchMembership.
  destruct (decide (addGroups = [] ∧ removeGroups = [])) as [[-> ->]|Hne].
  - simpl. by rewrite (right_id_L [] (++)).
  - assert (bool_decide (0 < length addGroups)%nat
            || bool_decide (0 < length removeGroups)%nat = true) as ->.
    { apply orb_true_iff. rewrite !bool_decide_eq_true.
      destruct addGroups, removeGroups; simpl; (lia || tauto). }
    unfold s_patchResource; simpl. by destruct (patchResource _ _ _ _).1.
Qed.

(** Outside safe mode the patch carries an operation exactly when it is
    sent; in safe mode it carries the additions only. *)
Lemma membershipOperations_nil (d : Z) (addGroups removeGroups : list string) :
  (d >= 0 → membershipOperations d addGroups removeGroups = [] ↔
            addGroups = [] ∧ removeGroups = []) ∧
  (d < 0 → membershipOperations d addGroups removeGroups = [] ↔ addGroups = []).
Proof.
  unfold membershipOperations. rewrite !memberValues_length. split; intros Hd.
  - rewrite (bool_decide_eq_true_2 (d >= 0)) by done.
    destruct addGroups, removeGroups; simpl; split; (done || intros [??]; done).
  - rewrite (bool_decide_eq_false_2 (d >= 0)) by lia.
    destruct addGroups, removeGroups; simpl; split; done.
Qed.

End EngineFacts.

(** ** The engine on concrete inputs *)

Section Examples.

#[local] Existing Instance canonicalRuntime.

(** C9, as stated, fails: with the users loaded and [s.scimGroups] nil, the
    phase under full destructive mode removes the target user from its team:
    it sends a PATCH and appends a success entry. *)
Lemma syncMembership_nil_groups_counterexample :
  ¬ (∀ (src : snapshot) (m : machine directory),
       scimUsers m = None ∨ scimGroups m = None →
       (syncMembership src m).1 = ([], [], None) ∧ calls (syncMembership src m).2 = calls m).
Proof.
  intros Hclaim.
  destruct (Hclaim nilGroupsSource nilGroupsMachine) as [Hentries _]; [by right|].
  vm_compute in Hentries. discriminate Hentries.
Qed.

(** C2 on an input: the team [t1] carries the identifier of the source group
    [g1], which was renamed. *)
Lemma round0_matches_by_externalId_witness :
  let m := loadedEng false false 0 in
  let T := engTeam in
  let G := engRenamed in
  let f0 := GFrame m (copyMap 87 {["t1" := 0%nat]})
                   (collectGroups (Groups engRenamedSource)) [] [] in
  let lookup := groupLookup 0 f0 in
  let f1 := matchRoundStep f0 0 in
  lookup !! Group_Id G = Some 0%nat ∧
  externalGroups f1 !! Group_Id G = None ∧
  keeperGroups f1 !! scimGroup_Id T = None ∧
  (∃ new, calls (syncGroups engRenamedSource m).2 = calls (g_mach (matchRounds f0)) ++ new ∧
          (CPost "Groups" (groupPayload G) ∉ new) ∧
          (CDelete "Groups" (scimGroup_Id T) ∉ new)) ∧
  ∃ before after,
    ranged 134 0 (externalGroups f0) = before ++ (Group_Id G, G) :: after ∧
    let fa := foldl (λ f kv, matchGroup 0 lookup f kv.2) f0 before in
    if decide (scimGroup_Name T = Group_Name G) then
      g_log (matchGroup 0 lookup fa G) = g_log fa ∧
      groupObjs (g_mach f1) !! 0%nat = Some T
    else
      (∃ later, calls (g_mach f1) = calls (g_mach fa) ++ renamePatch T G :: later) ∧
      groupObjs (g_mach f1) !! 0%nat =
        Some (match (patchResource "Groups" (scimGroup_Id T)
                       (replacePayload [("displayName", AString (Group_Name G))])
                       (server (g_mach fa))).1 with
              | None => renamedGroup T G
              | Some _ => T
              end).
Proof.
  apply (round0_matches_by_externalId engRenamedSource (loadedEng false false 0)
           {["t1" := 0%nat]} 0%nat engTeam engRenamed).
  - reflexivity.
  - reflexivity.
  - reflexivity.
  - reflexivity.
  - reflexivity.
  - intros k p Hk _. apply lookup_singleton_Some in Hk. symmetry. apply Hk.
Defined.

(** C6 on an input: full destructive mode is configured, the crawl reports
    load errors and finds none of the provisioned records. *)
Lemma load_errors_force_safe_mode_witness :
  Sync partialCrawl (newSync false true 1 engDirectory)
  = Sync partialCrawl (set_destructive (-1) (newSync false true 1 engDirectory)) ∧
  destructive (Sync partialCrawl (newSync false true 1 engDirectory)).2 = -1 ∧
  ∃ new, calls (Sync partialCrawl (newSync false true 1 engDirectory)).2 =
           calls (newSync false true 1 engDirectory) ++ new ∧
         Forall (λ c, is_deletion c = false) new.
Proof.
  apply (load_errors_force_safe_mode partialCrawl (newSync false true 1 engDirectory));
    reflexivity.
Defined.

(** C10 on an input: two source users whose emails fold to the email of the
    one target user. *)
Lemma shared_email_users_share_target_witness :
  let m := loadedEng false true 0 in
  let T := annInEng in
  let f0 := UFrame m (copyMap 222 {["k1" := 0%nat]}) (collectUsers (Users twoAnns)) [] [] in
  let lookup := userLookup 237 (userObjs m) {["k1" := 0%nat]} in
  let f1 := matchUsers f0 in
  (fold_String (scimUser_Email T) = fold_String (User_Email annLower) ∧
   lookup !! fold_String (User_Email annUpper) = Some 0%nat) ∧
  (externalUsers f1 !! User_Id annLower = None ∧
   externalUsers f1 !! User_Id annUpper = None) ∧
  keeperUsers f1 !! scimUser_Id T = None ∧
  (∃ new, calls (u_mach (createUsers f1)) = calls (u_mach f1) ++ new ∧
          (CPost "Users" (userPayload annLower) ∉ new) ∧
          (CPost "Users" (userPayload annUpper) ∉ new)) ∧
  ∀ before u after,
    ranged 241 0 (externalUsers f0) = before ++ (User_Id u, u) :: after →
    fold_String (User_Email u) = fold_String (User_Email annLower) →
    let fa := foldl (λ f kv, matchUser lookup f kv.2) f0 before in
    ∃ r, userObjs (u_mach fa) !! 0%nat = Some r ∧ sameIdentity T r ∧
         calls (u_mach (matchUser lookup fa u)) =
           calls (u_mach fa) ++
             (if decide (userDiff r u = []) then []
              else [CPatch "Users" (scimUser_Id T) (replacePayload (userDiff r u))]) ∧
         (Forall (λ kv, fold_String (User_Email kv.2) ≠ fold_String (User_Email annLower))
                 after →
          userObjs (u_mach f1) !! 0%nat =
            Some (if decide (userDiff r u = []) then updatedUser T u
                  else match (patchResource "Users" (scimUser_Id T)
                                (replacePayload (userDiff r u)) (server (u_mach fa))).1 with
                       | None => updatedUser T u
                       | Some _ => r
                       end)).
Proof.
  apply (shared_email_users_share_target twoAnns (loadedEng false true 0)
           {["k1" := 0%nat]} 0%nat annInEng annLower annUpper).
  - reflexivity.
  - reflexivity.
  - reflexivity.
  - reflexivity.
  - reflexivity.
  - vm_compute. discriminate.
  - reflexivity.
Defined.

(** C10, as stated, fails: the two source users are matched to the one
    target user, the second is processed last and its request fails, and the
    object of the target keeps the identifier of the first. *)
Lemma last_user_loses_when_patch_fails_counterexample :
  let f0 := UFrame loadedEngDown (copyMap 222 {["k1" := 0%nat]})
                   (collectUsers (Users twoAnns)) [] [] in
  let f1 := matchUsers f0 in
  ranged 241 0 (externalUsers f0) = [("u1", annLower); ("u2", annUpper)] ∧
  fold_String (User_Email annLower) = fold_String (scimUser_Email annInEng) ∧
  fold_String (User_Email annUpper) = fold_String (scimUser_Email annInEng) ∧
  calls (u_mach f1) =
    [CPatch "Users" "k1" (replacePayload (userDiff annInEng annUpper))] ∧
  u_failures f1 = ["PATCH user " +:+ quoted "Ann@Example.com" +:+ " error: " +:+ unavailable] ∧
  userObjs (u_mach f1) !! 0%nat = Some annInEng ∧
  ¬ (userObjs (u_mach f1) !! 0%nat = Some (updatedUser annInEng annUpper)).
Proof. vm_compute. repeat split; try done. Qed.

(** C4: the code at the failing input.  Safe mode; the target user is in the
    team [t1], which has an [ExternalId]; the source user is in no group.
    Nothing is to be added and the removal is suppressed, yet a PATCH with
    an empty list of operations is sent, and the success entry counts one
    removal. *)
Theorem membership_patch_sent_with_no_operation :
  let m := loadedEng false false (-1) in
  let r := syncMembership annLeftEng m in
  destructive m < 0 ∧
  toAdd (keeperGroupMap (groupObjs m) {["t1" := 0%nat]}) annInEng annLower = [] ∧
  membershipOperations (destructive m) [] ["t1"] = [] ∧
  calls r.2 = [CPatch "Users" "k1" (membershipPayload [])] ∧
  r.1 = (["SCIM changed user " +:+ quoted "ann@example.com"
          +:+ " membership: 0 added; 1 removed"],
         ["REMOVE membership for user " +:+ quoted "ann@example.com"
          +:+ " skipped since the " +:+ quoted "Safe Mode" +:+ " is enforced"],
         None).
Proof. vm_compute. repeat split; done. Qed.

(** C5: the code at the failing input.  The target user is in the team [t1];
    the source user's list names the source group of [t1] twice.  Every
    translated identifier is in the target user's group set, so [toAdd] is
    empty; the loop of lines 351-359 puts [t1] in [addGroups], and the phase
    sends a PATCH that adds it. *)
Theorem membership_delta_adds_group_listed_twice :
  let m := loadedEng false false 1 in
  let groupMap := keeperGroupMap (groupObjs m) {["t1" := 0%nat]} in
  let user := sourceUser "u1" "ann@example.com" ["g1"; "g1"] in
  translated groupMap user = ["t1"; "t1"] ∧
  toAdd groupMap annInEng user = [] ∧
  (membershipDelta groupMap annInEng user).2 = ["t1"] ∧
  calls (syncMembership annTwiceInEng m).2 =
    [CPatch "Users" "k1"
       (membershipPayload [membershipOp "add" (memberValues ["t1"])])].
Proof. vm_compute. repeat split; done. Qed.

(** C1: the code at three failing inputs.  In each, the first run completes
    and every request of it succeeds; the second run, on the same source
    snapshot and on the directory the first run left, sends a request again.
    With two source groups of one name and one target group of that name,
    round 1 matches both source groups to the target group, whose lookup
    entry outlives the first match: the first run patches the target twice
    and the second run creates a group.  In safe mode the second run repeats
    the PATCH without operations that stands for the suppressed removal.  In
    full destructive mode it repeats the PATCH that adds the team the source
    lists twice. *)
Theorem second_run_sends_requests :
  (let run1 := Sync twoEngs (newSync false false 0 handMadeEng) in
   let run2 := Sync twoEngs (newSync false false 0 (server run1.2)) in
   let link := λ id, CPatch "Groups" "t1" (replacePayload [("externalId", AString id)]) in
   run1.1.1.2 = None ∧
   calls run1.2 = [link "g1"; link "g2"] ∧
   FailedGroups <$> run1.1.1.1 = Some [] ∧
   calls run2.2 = [CPost "Groups" (groupPayload {| Group_Id := "g1"; Group_Name := "Eng" |})]) ∧
  (let run1 := Sync annLeftEng (newSync false true (-1) engDirectory) in
   let run2 := Sync annLeftEng (newSync false true (-1) (server run1.2)) in
   run1.1.1.2 = None ∧
   calls run1.2 = [CPatch "Users" "k1" (membershipPayload [])] ∧
   (patchResource "Users" "k1" (membershipPayload []) engDirectory).1 = None ∧
   server run1.2 = engDirectory ∧
   calls run2.2 = [CPatch "Users" "k1" (membershipPayload [])]) ∧
  (let run1 := Sync annTwiceInEng (newSync false true 1 engDirectory) in
   let run2 := Sync annTwiceInEng (newSync false true 1 (server run1.2)) in
   let add := CPatch "Users" "k1"
                (membershipPayload [membershipOp "add" (memberValues ["t1"])]) in
   run1.1.1.2 = None ∧
   calls run1.2 = [add] ∧
   (patchResource "Users" "k1"
      (membershipPayload [membershipOp "add" (memberValues ["t1"])]) engDirectory).1 = None ∧
   server run1.2 = engDirectory ∧
   calls run2.2 = [add]).
Proof. vm_compute. repeat split; done. Qed.

End Examples.

(** ** More facts about the engine *)

Section EngineCoverage.

Context {Server Source : Type}.
Context `{!ScimApi Server} `{!ICrmDataSource Source} `{!Runtime}.

Implicit Types (m : machine Server) (p : ptr).

(** *** What each phase may touch *)

Lemma sends_only_refl (P : Call → Prop) m : sends_only P m m.
Proof. repeat split. exists []. by rewrite (right_id_L [] (++)). Qed.

Lemma sends_only_trans (P : Call → Prop) m1 m2 m3 :
  sends_only P m1 m2 → sends_only P m2 m3 → sends_only P m1 m3.
Proof.
  intros (Hv1 & Hu1 & Hd1 & n1 & Hc1 & Hn1) (Hv2 & Hu2 & Hd2 & n2 & Hc2 & Hn2).
  repeat split; try congruence.
  exists (n1 ++ n2). rewrite Hc2, Hc1, (assoc_L (++)). split; [done|].
  by apply Forall_app.
Qed.

Lemma sends_only_mono (P Q : Call → Prop) m m' :
  (∀ c, P c → Q c) → sends_only P m m' → sends_only Q m m'.
Proof.
  intros HPQ (Hv & Hu & Hd & new & Hc & Hn). repeat split; try done.
  exists new. split; [done|]. by eapply Forall_impl.
Qed.

Lemma sends_only_sent (P : Call → Prop) m (c : Call) (srv : Server) :
  P c → sends_only P m (sent c srv m).
Proof. intros Hc. repeat split. exists [c]. split; [done|]. by constructor. Qed.

Lemma objects_kept_refl {A : Type} (same : A → A → Prop) (objs : list A) :
  (∀ x, same x x) → objects_kept same objs objs.
Proof. intros Hrefl p x Hp. eauto. Qed.

Lemma objects_kept_trans {A : Type} (same : A → A → Prop) (o1 o2 o3 : list A) :
  (∀ x y z, same x y → same y z → same x z) →
  objects_kept same o1 o2 → objects_kept same o2 o3 → objects_kept same o1 o3.
Proof.
  intros Htrans H12 H23 p x Hp.
  destruct (H12 p x Hp) as (y & Hy & Hxy). destruct (H23 p y Hy) as (z & Hz & Hyz).
  eauto.
Qed.

Lemma objects_kept_app {A : Type} (same : A → A → Prop) (objs : list A) (x : A) :
  (∀ x, same x x) → objects_kept same objs (objs ++ [x]).
Proof. intros Hrefl p y Hp. exists y. split; [by apply lookup_app_l_Some|done]. Qed.

Lemma objects_kept_insert {A : Type} `{!Inhabited A} (same : A → A → Prop)
    (objs : list A) p (x : A) :
  (∀ x, same x x) → same (objs !!! p) x → objects_kept same objs (<[p := x]> objs).
Proof.
  intros Hrefl Hsame q y Hq. destruct (decide (q = p)) as [->|Hne].
  - exists x. split.
    + apply list_lookup_insert_eq. by eapply lookup_lt_Some.
    + by rewrite (list_lookup_total_correct _ _ _ Hq) in Hsame.
  - exists y. split; [by rewrite list_lookup_insert_ne|done].
Qed.

Lemma sameIdentity_refl (x : scimUser) : sameIdentity x x.
Proof. by repeat split. Qed.

Lemma sameIdentity_trans (x y z : scimUser) :
  sameIdentity x y → sameIdentity y z → sameIdentity x z.
Proof. unfold sameIdentity. intros (?&?&?) (?&?&?). repeat split; congruence. Qed.

Lemma group_phase_refl m : group_phase m m.
Proof.
  split; [apply sends_only_refl|]. split; [done|]. by apply objects_kept_refl.
Qed.

Lemma group_phase_trans m1 m2 m3 :
  group_phase m1 m2 → group_phase m2 m3 → group_phase m1 m3.
Proof.
  intros (Hs1 & [Hu1 Ho1] & Hk1) (Hs2 & [Hu2 Ho2] & Hk2). split; [|split].
  - by eapply sends_only_trans.
  - split; congruence.
  - eapply objects_kept_trans; [|done..]. unfold sameGroupId. congruence.
Qed.

Lemma user_phase_refl m : user_phase m m.
Proof.
  split; [apply sends_only_refl|]. split; [done|].
  apply objects_kept_refl, sameIdentity_refl.
Qed.

Lemma user_phase_trans m1 m2 m3 :
  user_phase m1 m2 → user_phase m2 m3 → user_phase m1 m3.
Proof.
  intros (Hs1 & [Hu1 Ho1] & Hk1) (Hs2 & [Hu2 Ho2] & Hk2). split; [|split].
  - by eapply sends_only_trans.
  - split; congruence.
  - eapply objects_kept_trans; [|done..]. apply sameIdentity_trans.
Qed.

(** A loop whose turns are related by a preorder relates its ends. *)
Lemma foldl_phase {F A : Type} (R : machine Server → machine Server → Prop)
    (mach : F → machine Server) (step : F → A → F) :
  (∀ m, R m m) → (∀ m1 m2 m3, R m1 m2 → R m2 m3 → R m1 m3) →
  (∀ f a, R (mach f) (mach (step f a))) →
  ∀ l f, R (mach f) (mach (foldl step f l)).
Proof.
  intros Hrefl Htrans Hstep l. induction l as [|a l IH]; intros f; simpl; [done|].
  eapply Htrans; [apply Hstep|apply IH].
Qed.

Lemma patchGroup_phase p group (f : gframe Server) :
  group_phase (g_mach f) (g_mach (patchGroup p group f)).
Proof.
  unfold patchGroup. case_bool_decide; [|apply group_phase_refl].
  unfold s_patchResource; simpl.
  destruct (patchResource _ _ _ _) as [[er|] srv]; simpl.
  - split; [by apply sends_only_sent|]. split; [done|]. by apply objects_kept_refl.
  - split; [by apply sends_only_sent|]. split; [done|]. simpl.
    by apply objects_kept_insert.
Qed.

Lemma matchRounds_phase (f : gframe Server) :
  group_phase (g_mach f) (g_mach (matchRounds f)).
Proof.
  unfold matchRounds.
  apply foldl_phase with (mach := g_mach);
    [apply group_phase_refl|apply group_phase_trans|]. clear f. intros f r.
  unfold matchRoundStep. case_bool_decide as Hsz; [apply group_phase_refl|].
  generalize (groupLookup r f). intros lookup. clear Hsz.
  apply foldl_phase with (mach := g_mach);
    [apply group_phase_refl|apply group_phase_trans|]. clear f. intros f kv.
  unfold matchGroup. destruct (_ !! _) as [p|]; simpl; [|apply group_phase_refl].
  apply patchGroup_phase.
Qed.

Lemma createGroups_phase (f : gframe Server) :
  group_phase (g_mach f) (g_mach (createGroups f)).
Proof.
  unfold createGroups.
  apply foldl_phase with (mach := g_mach);
    [apply group_phase_refl|apply group_phase_trans|]. clear f.
  intros f group. unfold createGroup, s_postResource; simpl.
  destruct (postResource _ _ _) as [[added|er] srv]; simpl;
    [destruct (parseScimGroup added); simpl|].
  - split; [by apply sends_only_sent|]. split; [done|]. simpl.
    by apply objects_kept_app.
  - split; [by apply sends_only_sent|]. split; [done|]. by apply objects_kept_refl.
  - split; [by apply sends_only_sent|]. split; [done|]. by apply objects_kept_refl.
Qed.

Lemma deleteGroups_phase (f : gframe Server) :
  group_phase (g_mach f) (g_mach (deleteGroups f)).
Proof.
  unfold deleteGroups.
  apply foldl_phase with (mach := g_mach);
    [apply group_phase_refl|apply group_phase_trans|]. clear f.
  intros f kv. unfold deleteGroup. case_bool_decide; [|apply group_phase_refl].
  destruct (_ || _); [|by destruct (verbose _); apply group_phase_refl].
  unfold s_deleteResource; simpl.
  destruct (deleteResource _ _ _) as [[er|] srv]; simpl.
  - split; [by apply sends_only_sent|]. split; [done|]. by apply objects_kept_refl.
  - split; [by apply sends_only_sent|]. split; [done|]. by apply objects_kept_refl.
Qed.

Lemma syncGroups_phase (src : Source) m : group_phase m (syncGroups src m).2.
Proof.
  unfold syncGroups. destruct (scimGroups m) as [groups|]; simpl;
    [|apply group_phase_refl].
  set (f0 := GFrame m _ _ [] []). change m with (g_mach f0) at 1.
  eapply group_phase_trans; [apply matchRounds_phase|].
  eapply group_phase_trans; [apply createGroups_phase|apply deleteGroups_phase].
Qed.

Lemma patchUser_phase p user (f : uframe Server) :
  user_phase (u_mach f) (u_mach (patchUser p user f)).
Proof.
  unfold patchUser. case_bool_decide; [|apply user_phase_refl].
  unfold s_patchResource; simpl.
  destruct (patchResource _ _ _ _) as [[er|] srv]; simpl.
  - split; [by apply sends_only_sent|]. split; [done|].
    apply objects_kept_refl, sameIdentity_refl.
  - split; [by apply sends_only_sent|]. split; [done|]. simpl.
    apply objects_kept_insert; [apply sameIdentity_refl|]. by repeat split.
Qed.

Lemma matchUsers_phase (f : uframe Server) :
  user_phase (u_mach f) (u_mach (matchUsers f)).
Proof.
  unfold matchUsers. case_bool_decide as Hsz; [|apply user_phase_refl].
  generalize (userLookup 237 (userObjs (u_mach f)) (default ∅ (scimUsers (u_mach f)))).
  intros lookup. clear Hsz.
  apply foldl_phase with (mach := u_mach);
    [apply user_phase_refl|apply user_phase_trans|]. clear f. intros f kv.
  unfold matchUser. destruct (_ !! _) as [p|]; simpl; [|apply user_phase_refl].
  apply patchUser_phase.
Qed.

Lemma createUsers_phase (f : uframe Server) :
  user_phase (u_mach f) (u_mach (createUsers f)).
Proof.
  unfold createUsers.
  apply foldl_phase with (mach := u_mach);
    [apply user_phase_refl|apply user_phase_trans|]. clear f.
  intros f user. unfold createUser. destruct (negb _); [apply user_phase_refl|].
  unfold s_postResource; simpl.
  destruct (postResource _ _ _) as [[added|er] srv]; simpl;
    [destruct (parseScimUser added); simpl|].
  - split; [by apply sends_only_sent|]. split; [done|]. simpl.
    apply objects_kept_app, sameIdentity_refl.
  - split; [by apply sends_only_sent|]. split; [done|].
    apply objects_kept_refl, sameIdentity_refl.
  - split; [by apply sends_only_sent|]. split; [done|].
    apply objects_kept_refl, sameIdentity_refl.
Qed.

Lemma deleteUsers_phase (f : uframe Server) :
  user_phase (u_mach f) (u_mach (deleteUsers f)).
Proof.
  unfold deleteUsers.
  apply foldl_phase with (mach := u_mach);
    [apply user_phase_refl|apply user_phase_trans|]. clear f.
  intros f kv. unfold deleteUser. destruct (negb _); [apply user_phase_refl|].
  case_bool_decide; [|apply user_phase_refl].
  unfold s_deleteResource; simpl.
  destruct (deleteResource _ _ _) as [[er|] srv]; simpl.
  - split; [by apply sends_only_sent|]. split; [done|].
    apply objects_kept_refl, sameIdentity_refl.
  - split; [by apply sends_only_sent|]. split; [done|].
    apply objects_kept_refl, sameIdentity_refl.
Qed.

Lemma syncUsers_phase (src : Source) m : user_phase m (syncUsers src m).2.
Proof.
  unfold syncUsers. destruct (scimUsers m) as [users|]; simpl;
    [|apply user_phase_refl].
  set (f0 := UFrame m _ _ [] []). change m with (u_mach f0) at 1.
  eapply user_phase_trans; [apply matchUsers_phase|].
  eapply user_phase_trans; [apply createUsers_phase|apply deleteUsers_phase].
Qed.

Lemma membershipOperations_ops (d : Z) (addGroups removeGroups : list string) :
  Forall is_membership_op (membershipOperations d addGroups removeGroups).
Proof.
  unfold membershipOperations. apply Forall_app. split.
  - case_bool_decide; [|done]. repeat constructor. exists "add", addGroups. by auto.
  - case_bool_decide; [|done]. case_bool_decide; [|done].
    repeat constructor. exists "remove", removeGroups. by auto.
Qed.

(** A membership patch is no request on [Groups] and no request that
    creates, deletes or updates the attributes of a user. *)
Lemma membership_patch_spares_records (c : Call) :
  groups_call c ∨ is_membership_patch c → ¬ user_record_request c.
Proof.
  intros [Hg|(id & operations & -> & Hops)] Hreq.
  - destruct Hreq as [(payload & ->)|[(id & ->)|(id & value & ->)]]; discriminate Hg.
  - destruct Hreq as [(payload & [=])|[(id' & [=])|(id' & value & Heq)]].
    unfold membershipPayload, replacePayload in Heq.
    injection Heq as _ Hoperations. subst operations.
    apply Forall_cons in Hops as [(op & groupIds & _ & Hop) _].
    unfold membershipOp in Hop. discriminate Hop.
Qed.

(** A turn of the membership callback leaves the machine alone or sends one
    membership patch. *)
Lemma syncMember_step lookup groupMap (f : mframe Server) nth user :
  m_mach (syncMember lookup groupMap f nth user) = m_mach f ∨
  ∃ c srv, is_membership_patch c ∧
           m_mach (syncMember lookup groupMap f nth user) = sent c srv (m_mach f).
Proof.
  unfold syncMember. destruct (_ !! _) as [p|]; [|by left].
  unfold patchMembership. simpl. destruct (_ || _); [|by left]. right.
  unfold s_patchResource. simpl.
  destruct (patchResource _ _ _ _) as [[er|] srv]; simpl;
    (eexists _, srv; split;
     [eexists _, _; split; [done|apply membershipOperations_ops]|done]).
Qed.

Lemma syncMembers_phase lookup groupMap (l : list (nat * User)) (f : mframe Server) :
  let f' := foldl (λ f iu, syncMember lookup groupMap f iu.1 iu.2) f l in
  scimUsers (m_mach f') = scimUsers (m_mach f) ∧
  scimGroups (m_mach f') = scimGroups (m_mach f) ∧
  userObjs (m_mach f') = userObjs (m_mach f) ∧
  groupObjs (m_mach f') = groupObjs (m_mach f) ∧
  verbose (m_mach f') = verbose (m_mach f) ∧
  updateUsers (m_mach f') = updateUsers (m_mach f) ∧
  destructive (m_mach f') = destructive (m_mach f) ∧
  ∃ new, calls (m_mach f') = calls (m_mach f) ++ new ∧
         Forall is_membership_patch new ∧ (length new ≤ length l)%nat.
Proof.
  revert f. induction l as [|[nth user] l IH]; intros f; simpl.
  - repeat split. exists []. by rewrite (right_id_L [] (++)).
  - specialize (IH (syncMember lookup groupMap f nth user)). simpl in IH.
    destruct IH as (Hu & Hg & Huo & Hgo & Hv & Hup & Hd & new & Hc & Hnew & Hlen).
    destruct (syncMember_step lookup groupMap f nth user) as [Heq|(c & srv & Hp & Heq)];
      rewrite Heq in *.
    + repeat split; try done. exists new. repeat split; try done. lia.
    + repeat split; try done. exists (c :: new). simpl in Hc.
      rewrite <-(assoc_L (++)) in Hc. repeat split; try done.
      * by constructor.
      * simpl. lia.
Qed.

Lemma syncMembership_sends (src : Source) m :
  let m' := (syncMembership src m).2 in
  scimUsers m' = scimUsers m ∧ scimGroups m' = scimGroups m ∧
  userObjs m' = userObjs m ∧ groupObjs m' = groupObjs m ∧
  verbose m' = verbose m ∧ updateUsers m' = updateUsers m ∧
  destructive m' = destructive m ∧
  ∃ new, calls m' = calls m ++ new ∧ Forall is_membership_patch new ∧
         (length new ≤ length (Users src))%nat.
Proof.
  unfold syncMembership. simpl.
  pose proof (syncMembers_phase
                (userLookup 334 (userObjs m) (default ∅ (scimUsers m)))
                (keeperGroupMap (groupObjs m) (default ∅ (scimGroups m)))
                (imap pair (Users src)) (MFrame m [] [])) as Hph.
  simpl in Hph. by rewrite length_imap in Hph.
Qed.


(** X2: each reconciler keeps to its own side.  [syncGroups] sends only
    requests on [Groups] and leaves [s.scimUsers] and the user records
    untouched; [syncUsers] sends only requests on [Users] and leaves
    [s.scimGroups] and the group records untouched; neither changes
    [verbose], [updateUsers] or [destructive]. *)
Theorem reconcilers_keep_to_their_side (src : Source) m :
  (sends_only groups_call m (syncGroups src m).2 ∧
   users_side_kept m (syncGroups src m).2) ∧
  (sends_only users_call m (syncUsers src m).2 ∧
   groups_side_kept m (syncUsers src m).2).
Proof.
  destruct (syncGroups_phase src m) as (Hs & Hk & _).
  destruct (syncUsers_phase src m) as (Hs' & Hk' & _). done.
Qed.

(** X3: the identity of a target record is never rewritten.  Every group
    record that exists before [syncGroups] exists after it, at the same
    address and with the same [Id]; every user record that exists before
    [syncUsers] exists after it with the same [Id], [Email] and [Groups]:
    the reconcilers only ever write [ExternalId], the names and [Active],
    and never drop a record from memory. *)
Theorem reconcilers_keep_identities (src : Source) m :
  objects_kept sameGroupId (groupObjs m) (groupObjs (syncGroups src m).2) ∧
  objects_kept sameIdentity (userObjs m) (userObjs (syncUsers src m).2).
Proof.
  destruct (syncGroups_phase src m) as (_ & _ & Hg).
  destruct (syncUsers_phase src m) as (_ & _ & Hu). done.
Qed.

(** *** The run as a whole *)

Lemma populateScim_keeps m :
  sends_only (λ _, False) m (populateScim m).2 ∧
  ((populateScim m).1 = None →
   is_Some (scimUsers (populateScim m).2) ∧ is_Some (scimGroups (populateScim m).2)).
Proof.
  unfold populateScim. destruct (loadScim (server m)) as [[[users groups]|err] srv]; simpl.
  - split; [|by eauto]. repeat split. exists []. by rewrite (right_id_L [] (++)).
  - split; [|done]. repeat split. exists []. by rewrite (right_id_L [] (++)).
Qed.

Lemma syncGroups_no_error (src : Source) m :
  is_Some (scimGroups m) → (syncGroups src m).1.2 = None.
Proof. intros [groups Hg]. unfold syncGroups. by rewrite Hg. Qed.

Lemma syncUsers_no_error (src : Source) m :
  is_Some (scimUsers m) → (syncUsers src m).1.2 = None.
Proof. intros [users Hu]. unfold syncUsers. by rewrite Hu. Qed.

(** The machine the phases start from, and the run when both loads
    succeed. *)
Lemma Sync_loaded (src : Source) m :
  let src' := (Populate src).2 in
  let m0 := if LoadErrors src' then set_destructive (-1) m else m in
  (Populate src).1 = None → (populateScim m0).1 = None →
  Sync src m =
    (let g := syncGroups src' (populateScim m0).2 in
     let u := if updateUsers g.2 then syncUsers src' g.2 else (([], [], None), g.2) in
     let ms := syncMembership src' u.2 in
     ((Some (Build_SyncStat u.1.1.1 u.1.1.2 g.1.1.1 g.1.1.2 ms.1.1.1 ms.1.1.2), None),
      src', ms.2)).
Proof.
  intros src' m0 Hpop Hload. unfold Sync. rewrite Hpop. fold src'. fold m0.
  rewrite Hload. destruct (populateScim_keeps m0) as [_ Hmaps].
  destruct (Hmaps Hload) as [Husers Hgroups]. clear Hmaps.
  pose proof (syncGroups_no_error src' _ Hgroups) as Hg.
  destruct (syncGroups_phase src' (populateScim m0).2) as (_ & [Hku _] & _).
  destruct (syncGroups src' (populateScim m0).2) as [[[sg fg] eg] m2]; simpl in *.
  subst eg. rewrite <-Hku in Husers.
  pose proof (syncUsers_no_error src' _ Husers) as Hu.
  destruct (updateUsers m2).
  - destruct (syncUsers src' m2) as [[[su fu] eu] m3]; simpl in *. by subst eu.
  - done.
Qed.

(** X4: [stat] and [err] exclude each other, and a run that fails has sent
    nothing.  [Sync] returns a non-nil [stat] exactly when it returns a nil
    error; when it returns an error no POST, PATCH or DELETE was sent; when
    [Populate] fails the machine is left as it was. *)
Theorem Sync_fails_before_any_request (src : Source) m :
  let run := Sync src m in
  (is_Some run.1.1.1 ↔ run.1.1.2 = None) ∧
  (is_Some run.1.1.2 → calls run.2 = calls m) ∧
  (is_Some (Populate src).1 → run.2 = m).
Proof.
  simpl. destruct ((Populate src).1) as [e|] eqn:Hpop.
  - unfold Sync. rewrite Hpop. simpl.
    repeat split; try done; by intros [? [=]].
  - set (m0 := if LoadErrors (Populate src).2 then set_destructive (-1) m else m).
    assert (calls m0 = calls m) as Hm0 by (unfold m0; by destruct (LoadErrors _)).
    destruct ((populateScim m0).1) as [e|] eqn:Hload.
    + unfold Sync. rewrite Hpop. fold m0. rewrite Hload. simpl.
      destruct (populateScim_keeps m0) as [(_ & _ & _ & new & Hc & Hnew) _].
      destruct new as [|c new]; [|by inversion Hnew].
      rewrite (right_id_L [] (++)) in Hc.
      repeat split; try done; try (by intros [? [=]]). intros _. congruence.
    + rewrite (Sync_loaded src m Hpop Hload). simpl.
      repeat split; try done; try (by intros [? [=]]); eauto.
Qed.

(** X5: with [updateUsers] off, users are neither created, updated nor
    deleted.  Every request of the run is then a request on [Groups] or a
    PATCH of a user whose operations all add or remove memberships; none is
    a POST or a DELETE on [Users] or a PATCH that replaces attributes of a
    user; and the two user slices of the statistics are empty. *)
Theorem Sync_without_updateUsers (src : Source) m :
  updateUsers m = false →
  let run := Sync src m in
  (∃ new, calls run.2 = calls m ++ new ∧
          Forall (λ c, groups_call c ∨ is_membership_patch c) new ∧
          Forall (λ c, ¬ user_record_request c) new) ∧
  (∀ stat, run.1.1.1 = Some stat → SuccessUsers stat = [] ∧ FailedUsers stat = []).
Proof.
  intros Hoff.
  enough ((∃ new, calls (Sync src m).2 = calls m ++ new ∧
                  Forall (λ c, groups_call c ∨ is_membership_patch c) new) ∧
          (∀ stat, (Sync src m).1.1.1 = Some stat →
                   SuccessUsers stat = [] ∧ FailedUsers stat = [])) as [(new & Hc & Hnew) Hstat].
  { split; [|done]. exists new. split; [done|]. split; [done|].
    eapply Forall_impl; [done|]. apply membership_patch_spares_records. }
  simpl.
  destruct ((Populate src).1) as [e|] eqn:Hpop.
  { unfold Sync. rewrite Hpop. simpl. split; [|done].
    exists []. by rewrite (right_id_L [] (++)). }
  set (m0 := if LoadErrors (Populate src).2 then set_destructive (-1) m else m).
  assert (calls m0 = calls m ∧ updateUsers m0 = false) as [Hc0 Hu0]
    by (unfold m0; by destruct (LoadErrors _)).
  destruct (populateScim_keeps m0) as [(_ & Hu1 & _ & new1 & Hc1 & Hnew1) _].
  destruct new1 as [|c new1]; [|by inversion Hnew1].
  rewrite (right_id_L [] (++)) in Hc1.
  destruct ((populateScim m0).1) as [e|] eqn:Hload.
  { unfold Sync. rewrite Hpop. fold m0. rewrite Hload. simpl. split; [|done].
    exists []. rewrite (right_id_L [] (++)). split; [congruence|done]. }
  rewrite (Sync_loaded src m Hpop Hload). fold m0. cbv zeta.
  destruct (syncGroups_phase (Populate src).2 (populateScim m0).2)
    as ((_ & Hu2 & _ & new2 & Hc2 & Hnew2) & _ & _).
  rewrite Hu2, Hu1, Hu0. cbn [fst snd].
  destruct (syncMembership_sends (Populate src).2
              (syncGroups (Populate src).2 (populateScim m0).2).2)
    as (_ & _ & _ & _ & _ & _ & _ & new3 & Hc3 & Hnew3 & _).
  split.
  - exists (new2 ++ new3). rewrite Hc3, Hc2, Hc1, Hc0, (assoc_L (++)). split; [done|].
    apply Forall_app. split; eapply Forall_impl; eauto.
  - by intros stat [= <-].
Qed.

(** *** The lookup tables of the group reconciler *)

(** A table built by [lookup[key(v)] = v] over a map offers exactly the keys
    of the values of the map, and only values of the map. *)
Lemma keyed_table {V : Type} (key : V → string) (line : nat) (mp : gmap string V) k :
  let table : gmap string V :=
    foldl (λ acc kv, <[key kv.2 := kv.2]> acc) ∅ (ranged line 0 mp) in
  (∀ v, table !! k = Some v → key v = k ∧ ∃ id, mp !! id = Some v) ∧
  ((∃ id v, mp !! id = Some v ∧ key v = k) → is_Some (table !! k)).
Proof.
  simpl. rewrite (foldl_insert_lookup (λ kv : string * V, key kv.2) snd), lookup_empty.
  destruct (last _) as [[id v]|] eqn:Hlast.
  - apply last_Some_elem_of, list_elem_of_filter in Hlast as [Hk Hin].
    apply elem_of_ranged in Hin. simpl in *. split; [|by eauto].
    intros v' [= <-]. eauto.
  - split; [done|]. intros (id & v & Hv & Hk). exfalso.
    apply last_None in Hlast. apply (elem_of_ranged line 0) in Hv.
    assert ((id, v) ∈ filter (λ kv : string * V, key kv.2 = k) (ranged line 0 mp)) as Hin
      by (by apply list_elem_of_filter).
    rewrite Hlast in Hin. by apply not_elem_of_nil in Hin.
Qed.

Lemma omap_lookup_keys {V : Type} (mp : gmap string V) (l : list (string * V)) :
  (∀ kv, kv ∈ l → mp !! kv.1 = Some kv.2) → omap (λ k, mp !! k) l.*1 = l.*2.
Proof.
  induction l as [|[k v] l IH]; intros Hl; [done|].
  pose proof (Hl (k, v) (list_elem_of_here _ _)) as Hkv. simpl in Hkv.
  assert (omap (λ k, mp !! k) ((k, v) :: l).*1 =
          match mp !! k with
          | Some v => v :: omap (λ k, mp !! k) l.*1
          | None => omap (λ k, mp !! k) l.*1
          end) as -> by reflexivity.
  rewrite Hkv. simpl. f_equal.
  apply IH. intros kv Hin. apply Hl. by apply list_elem_of_further.
Qed.

Lemma foldl_insert_size {V : Type} (l : list (string * V)) (acc : gmap string V) :
  NoDup l.*1 → (∀ kv, kv ∈ l → acc !! kv.1 = None) →
  size (foldl (λ acc kv, <[kv.1 := kv.2]> acc) acc l) = (size acc + length l)%nat.
Proof.
  revert acc. induction l as [|[k v] l IH]; intros acc Hnd Hfresh; simpl; [lia|].
  apply NoDup_cons in Hnd as [Hk Hnd]. rewrite IH; [|done|].
  - rewrite map_size_insert_None; [lia|]. apply (Hfresh (k, v)), list_elem_of_here.
  - intros kv Hkv. rewrite lookup_insert_ne.
    + apply Hfresh. by apply list_elem_of_further.
    + intros Heq. apply Hk. apply list_elem_of_fmap. by exists kv.
Qed.

Lemma ranged_length {V : Type} (line nth : nat) (mp : gmap string V) :
  length (ranged line nth mp) = size mp.
Proof. by rewrite (ranged_perm V line nth mp), length_map_to_list. Qed.

Lemma ranged_filter_length {V : Type} (P : string * V → Prop) `{!∀ kv, Decision (P kv)}
    (line nth : nat) (mp : gmap string V) :
  length (filter P (ranged line nth mp)) = size (filter P mp).
Proof.
  rewrite (ranged_perm V line nth mp), map_filter_alt, map_size_list_to_map; [done|].
  eapply sublist_NoDup; [apply (NoDup_fst_map_to_list mp)|].
  apply fmap_sublist, sublist_filter.
Qed.

(** The unmatched target groups that carry an [ExternalId]. *)
Lemma zipped_round2 (f : gframe Server) :
  groupLookup 2 f =
    foldl (λ acc kv, <[kv.1 := kv.2]> acc) ∅
          (zip (ranged 116 0 (externalGroups f)).*1
               (filter (λ kv : string * ptr,
                          len_pos (scimGroup_ExternalId
                                     (groupObjs (g_mach f) !!! kv.2)) = true)
                       (ranged 120 0 (keeperGroups f))).*2).
Proof.
  unfold groupLookup. rewrite omap_lookup_keys; [done|].
  intros [k v] Hkv. apply list_elem_of_filter in Hkv as [_ Hkv].
  by apply elem_of_ranged in Hkv.
Qed.

(** X6: what the lookup table of a round offers.  In round 0 a key has an
    entry exactly when an unmatched target group has that [ExternalId] (the
    empty one included), in round 1 exactly when one has that case-folded
    name, and the entry is such a group.  In round 2 every entry pairs a
    source group that is still unmatched with a target group that is still
    unmatched and has a non-empty [ExternalId], whatever their names. *)
Theorem groupLookup_offers_unmatched_targets (f : gframe Server) :
  let objs := groupObjs (g_mach f) in
  (∀ k,
     (∀ p, groupLookup 0 f !! k = Some p →
           scimGroup_ExternalId (objs !!! p) = k ∧ ∃ id, keeperGroups f !! id = Some p) ∧
     ((∃ id p, keeperGroups f !! id = Some p ∧ scimGroup_ExternalId (objs !!! p) = k) →
      is_Some (groupLookup 0 f !! k))) ∧
  (∀ k,
     (∀ p, groupLookup 1 f !! k = Some p →
           fold_String (scimGroup_Name (objs !!! p)) = k ∧
           ∃ id, keeperGroups f !! id = Some p) ∧
     ((∃ id p, keeperGroups f !! id = Some p ∧
               fold_String (scimGroup_Name (objs !!! p)) = k) →
      is_Some (groupLookup 1 f !! k))) ∧
  (∀ k p, groupLookup 2 f !! k = Some p →
          is_Some (externalGroups f !! k) ∧
          len_pos (scimGroup_ExternalId (objs !!! p)) = true ∧
          ∃ id, keeperGroups f !! id = Some p).
Proof.
  cbv zeta. split; [|split].
  - intros k.
    apply (keyed_table (λ p, scimGroup_ExternalId (groupObjs (g_mach f) !!! p)) 107).
  - intros k.
    apply (keyed_table (λ p, fold_String (scimGroup_Name (groupObjs (g_mach f) !!! p))) 111).
  - intros k p. rewrite zipped_round2.
    rewrite (foldl_insert_lookup fst snd), lookup_empty.
    destruct (last _) as [[k' p']|] eqn:Hlast; [|done]. intros [= <-].
    apply last_Some_elem_of, list_elem_of_filter in Hlast as [Hk Hin].
    simpl in Hk. subst k'. pose proof (elem_of_zip_l _ _ _ _ Hin) as Hl.
    apply elem_of_zip_r in Hin.
    apply list_elem_of_fmap in Hl as ([k0 g] & -> & Hl). apply elem_of_ranged in Hl.
    apply list_elem_of_fmap in Hin as ([id p0] & -> & Hin).
    apply list_elem_of_filter in Hin as [Hpos Hin]. apply elem_of_ranged in Hin.
    simpl in *. eauto.
Qed.

(** X7: round 2 pairs as many groups as the smaller side has.  The table of
    round 2 has one entry for each unmatched source group, or one for each
    unmatched target group with a non-empty [ExternalId], whichever are
    fewer. *)
Theorem round2_pairs_the_smaller_side (f : gframe Server) :
  size (groupLookup 2 f) =
    (size (externalGroups f) `min`
     size (filter (λ kv : string * ptr,
                     len_pos (scimGroup_ExternalId (groupObjs (g_mach f) !!! kv.2)) = true)
                  (keeperGroups f)))%nat.
Proof.
  rewrite zipped_round2, foldl_insert_size.
  - rewrite map_size_empty, length_zip_with, !length_fmap, ranged_length.
    by rewrite ranged_filter_length.
  - eapply sublist_NoDup; [apply (NoDup_ranged_keys 116 0 (externalGroups f))|].
    generalize ((ranged 116 0 (externalGroups f)).*1). intros l.
    generalize ((filter (λ kv : string * ptr,
                   len_pos (scimGroup_ExternalId (groupObjs (g_mach f) !!! kv.2)) = true)
                 (ranged 120 0 (keeperGroups f))).*2). intros k.
    revert k. induction l as [|x l IH]; intros [|y k]; simpl; try done.
    + apply sublist_nil_l.
    + by apply sublist_skip.
  - intros kv _. apply lookup_empty.
Qed.

(** *** The membership patch of a matched user *)

Lemma membershipOperations_unsafe (d : Z) (addGroups removeGroups : list string) :
  d >= 0 →
  membershipOperations d addGroups removeGroups =
    (if decide (addGroups = []) then []
     else [membershipOp "add" (memberValues addGroups)]) ++
    (if decide (removeGroups = []) then []
     else [membershipOp "remove" (memberValues removeGroups)]).
Proof.
  intros Hd. unfold membershipOperations. rewrite !memberValues_length.
  rewrite (bool_decide_eq_true_2 (d >= 0)) by done.
  by destruct addGroups, removeGroups.
Qed.

Lemma filter_all {A : Type} (P : A → Prop) `{!∀ x, Decision (P x)} (l : list A) :
  (∀ x, P x) → filter P l = l.
Proof.
  intros HP. induction l as [|x l IH]; [done|].
  by rewrite filter_cons_True, IH.
Qed.

(** X8: the one patch of a matched user, outside safe mode.  For a source
    user whose email finds a target user, whose groups reach no target group
    twice, and with [destructive >= 0], the callback sends nothing when
    there is nothing to add and nothing to remove, and otherwise exactly one
    PATCH on that target user: an [add] operation with the translated groups
    the target user is not in (when there are any), then a [remove]
    operation with the target user's groups that no source group translates
    to (when there are any), all of them when [destructive > 0] and only
    those that are known and have an [ExternalId] when [destructive = 0]. *)
Theorem matched_user_gets_one_patch lookup groupMap (f : mframe Server) nth user p :
  lookup !! fold_String (User_Email user) = Some p →
  NoDup (translated groupMap user) →
  destructive (m_mach f) >= 0 →
  let m := m_mach f in
  let keeperUser := userObjs m !!! p in
  let add := toAdd groupMap keeperUser user in
  ∃ remove,
    remove ≡ₚ filter (λ g, destructive m > 0 ∨ controlled m g = true)
                     (elements (candidateRemove groupMap keeperUser user)) ∧
    calls (m_mach (syncMember lookup groupMap f nth user)) =
      calls m ++
        (if decide (add = [] ∧ remove = []) then []
         else [CPatch "Users" (scimUser_Id keeperUser)
                 (membershipPayload
                    ((if decide (add = []) then []
                      else [membershipOp "add" (memberValues add)]) ++
                     (if decide (remove = []) then []
                      else [membershipOp "remove" (memberValues remove)])))]).
Proof.
  intros Hp Hnd Hd. cbv zeta. unfold syncMember. rewrite Hp.
  set (keeperUser := userObjs (m_mach f) !!! p).
  destruct (membershipDelta_spec groupMap keeperUser user) as [Hcand Hadd].
  rewrite (Hadd Hnd), Hcand. clear Hadd Hcand.
  set (rm := removeList nth (m_mach f) user (candidateRemove groupMap keeperUser user)).
  exists rm.1. split.
  - destruct (removeList_spec nth (m_mach f) user
                (candidateRemove groupMap keeperUser user)) as [Hfull Hpart].
    fold rm in Hfull, Hpart. destruct (decide (destructive (m_mach f) > 0)) as [Hpos|Hzero].
    + destruct (Hfull Hpos) as [-> _]. rewrite filter_all; [done|]. by left.
    + destruct Hpart as [-> _]; [lia|]. rewrite ranged_set_perm.
      apply reflexive_eq, list_filter_iff. intros g. split; [by right|].
      by intros [?|?].
  - rewrite patchMembership_sends. cbn [m_mach].
    by rewrite membershipOperations_unsafe.
Qed.

(** *** What the deletion loops forget *)

Lemma deleteGroup_forgets (f : gframe Server) (kv : string * ptr) (k : string) :
  let f' := deleteGroup f kv in
  destructive (g_mach f') = destructive (g_mach f) ∧
  (groupAt (g_mach f) k = None → groupAt (g_mach f') k = None) ∧
  ∃ new, calls (g_mach f') = calls (g_mach f) ++ new ∧
    (groupAt (g_mach f') k = groupAt (g_mach f) k ∨
     groupAt (g_mach f') k = None ∧ kv.1 = k ∧ destructive (g_mach f) >= 0 ∧
     CDelete "Groups" k ∈ new).
Proof.
  cbv zeta. unfold deleteGroup.
  assert (∃ new, calls (g_mach f) = calls (g_mach f) ++ new ∧
            (groupAt (g_mach f) k = groupAt (g_mach f) k ∨
             groupAt (g_mach f) k = None ∧ kv.1 = k ∧ destructive (g_mach f) >= 0 ∧
             CDelete "Groups" k ∈ new)) as Hsame.
  { exists []. rewrite (right_id_L [] (++)). by auto. }
  case_bool_decide as Hd; [|done].
  destruct (_ || _); [|by destruct (verbose _)].
  unfold s_deleteResource; simpl.
  destruct (deleteResource _ _ _) as [[er|] srv]; simpl.
  - split; [done|]. split; [done|]. exists [CDelete "Groups" kv.1]. by auto.
  - unfold groupAt. simpl. destruct (scimGroups (g_mach f)) as [groups|]; simpl.
    + split; [done|]. destruct (decide (kv.1 = k)) as [<-|Hne].
      * rewrite lookup_delete_eq. split; [done|]. exists [CDelete "Groups" kv.1].
        split; [done|]. right. repeat split; try done. apply list_elem_of_here.
      * rewrite lookup_delete_ne by done. split; [done|].
        exists [CDelete "Groups" kv.1]. by auto.
    + split; [done|]. split; [done|]. exists [CDelete "Groups" kv.1]. by auto.
Qed.

(** X9: the deletion loop forgets only what it deletes.  An entry of
    [s.scimGroups] is the same after the deletion loop of [syncGroups], or it
    is gone, and then its key was an unmatched target group, [destructive]
    is not negative and a DELETE for that key is among the requests of the
    loop.  In particular the matched groups stay in [s.scimGroups], where
    the membership phase looks them up. *)
Theorem deleteGroups_forgets_only_deleted (f : gframe Server) (k : string) :
  let f' := deleteGroups f in
  groupAt (g_mach f') k = groupAt (g_mach f) k ∨
  (groupAt (g_mach f') k = None ∧ is_Some (keeperGroups f !! k) ∧
   destructive (g_mach f) >= 0 ∧
   ∃ new, calls (g_mach f') = calls (g_mach f) ++ new ∧ CDelete "Groups" k ∈ new).
Proof.
  cbv zeta. unfold deleteGroups.
  assert (∀ l (f : gframe Server),
            let f' := foldl deleteGroup f l in
            (groupAt (g_mach f) k = None → groupAt (g_mach f') k = None) ∧
            ∃ new, calls (g_mach f') = calls (g_mach f) ++ new ∧
              (groupAt (g_mach f') k = groupAt (g_mach f) k ∨
               groupAt (g_mach f') k = None ∧ k ∈ l.*1 ∧ destructive (g_mach f) >= 0 ∧
               CDelete "Groups" k ∈ new)) as Hloop.
  { clear f. intros l. induction l as [|kv l IH]; intros f; simpl.
    - split; [done|]. exists []. rewrite (right_id_L [] (++)). by auto.
    - destruct (deleteGroup_forgets f kv k) as (Hd & Hnone & new1 & Hc1 & Hstep).
      destruct (IH (deleteGroup f kv)) as (Hnone' & new2 & Hc2 & Hrest).
      split; [by auto|]. exists (new1 ++ new2).
      rewrite Hc2, Hc1, (assoc_L (++)). split; [done|].
      destruct Hstep as [Hsame|(Hgone & <- & Hpos & Hin)].
      + destruct Hrest as [Hsame'|(Hgone & Hin & Hpos & Hdel)].
        * left. congruence.
        * right. split; [done|]. split; [by apply list_elem_of_further|].
          split; [by rewrite <-Hd|]. apply elem_of_app. by right.
      + right. split; [by auto|]. split; [apply list_elem_of_here|]. split; [done|].
        apply elem_of_app. by left. }
  destruct (Hloop (ranged 194 0 (keeperGroups f)) f) as (_ & new & Hc & [Hsame|Hgone]);
    [by left|right].
  destruct Hgone as (Hgone & Hin & Hpos & Hdel). split; [done|]. split; [|by eauto].
  apply list_elem_of_fmap in Hin as ([id p] & -> & Hin). apply elem_of_ranged in Hin.
  by eauto.
Qed.

End EngineCoverage.

(** ** The phases and the run on concrete inputs *)

Section CoverageExamples.

#[local] Existing Instance canonicalRuntime.

(** X5 on an input: full destructive mode, user updates off, and a source
    user who has left the one group. *)
Lemma Sync_without_updateUsers_witness :
  updateUsers (newSync false false 1 engDirectory) = false ∧
  let run := Sync annLeftEng (newSync false false 1 engDirectory) in
  (∃ new, calls run.2 = calls (newSync false false 1 engDirectory) ++ new ∧
          Forall (λ c, groups_call c ∨ is_membership_patch c) new ∧
          Forall (λ c, ¬ user_record_request c) new) ∧
  (∀ stat, run.1.1.1 = Some stat → SuccessUsers stat = [] ∧ FailedUsers stat = []).
Proof.
  split; [reflexivity|].
  apply (Sync_without_updateUsers annLeftEng (newSync false false 1 engDirectory)).
  reflexivity.
Defined.

(** X8 on an input: the source user has left the group the target user is
    still in, under full destructive mode. *)
Lemma matched_user_gets_one_patch_witness :
  let m := loadedEng false false 1 in
  let lookup := userLookup 334 (userObjs m) {["k1" := 0%nat]} in
  let groupMap := keeperGroupMap (groupObjs m) {["t1" := 0%nat]} in
  let user := sourceUser "u1" "ann@example.com" [] in
  ∃ remove,
    remove ≡ₚ filter (λ g, destructive m > 0 ∨ controlled m g = true)
                     (elements (candidateRemove groupMap annInEng user)) ∧
    calls (m_mach (syncMember lookup groupMap (MFrame m [] []) 0 user)) =
      calls m ++
        (if decide (toAdd groupMap annInEng user = [] ∧ remove = []) then []
         else [CPatch "Users" (scimUser_Id annInEng)
                 (membershipPayload
                    ((if decide (toAdd groupMap annInEng user = []) then []
                      else [membershipOp "add" (memberValues (toAdd groupMap annInEng user))]) ++
                     (if decide (remove = []) then []
                      else [membershipOp "remove" (memberValues remove)])))]).
Proof.
  apply (matched_user_gets_one_patch
           (userLookup 334 (userObjs (loadedEng false false 1)) {["k1" := 0%nat]})
           (keeperGroupMap (groupObjs (loadedEng false false 1)) {["t1" := 0%nat]})
           (MFrame (loadedEng false false 1) [] []) 0
           (sourceUser "u1" "ann@example.com" []) 0%nat).
  - reflexivity.
  - vm_compute. constructor.
  - vm_compute. discriminate.
Defined.

End CoverageExamples.
